(** * send-anywhere-lite: chunked file transfer over a WebRTC data channel

    A shallow embedding of [client/src/webrtc.js]:

    - [Receiver.onmessage]  is the [dc.onmessage] closure installed by
      [setupReceive], with its captured variables [meta], [receivedBytes]
      and [chunks] made an explicit state record;
    - [Sender.sendFileOverRTC] is the async function of the same name, run
      against an explicit channel record and an environment that says what
      happens to the channel during every [await];
    - [Negotiator] holds the socket handlers of [createWebRTCConnection].

    Numbers that the program keeps integral (sizes, offsets, byte counts)
    are [Z]; the percentage handed to the progress callbacks is a JavaScript
    double and is represented by [jsnum]: the exact rational value, or one
    of the non-finite values a division by zero produces.  The rounding of
    doubles is not modelled; it does not touch the integral arguments of the
    callbacks, nor a quotient of two equal numbers. *)

From Stdlib Require Import ZArith NArith QArith Lia Bool String List Sorted.
From Stdlib Require Import Strings.Byte.
Import ListNotations.
Close Scope Q_scope.
Open Scope Z_scope.

(** ** JavaScript numbers, as far as the progress percentage needs them *)

Inductive jsnum : Type :=
| Finite (q : Q)
| PosInfinity
| NegInfinity
| NaN.

(** [x / y] for integral [x] and [y]. *)
Definition js_div (x y : Z) : jsnum :=
  if y =? 0 then
    if x =? 0 then NaN else if 0 <? x then PosInfinity else NegInfinity
  else Finite (Qred (inject_Z x / inject_Z y)).

(** [v * 100]. *)
Definition js_times100 (v : jsnum) : jsnum :=
  match v with
  | Finite q => Finite (Qred (q * inject_Z 100))
  | other => other
  end.

(** [(x / y) * 100], the expression of both progress reports. *)
Definition percent (x y : Z) : jsnum := js_times100 (js_div x y).

(** ** Data model *)

(** The object that travels in the text frame:
    [{ filename, size, type }].  The frame is modelled after [JSON.parse];
    [JSON.stringify] followed by [JSON.parse] is the identity on it. *)
Module Meta.
Record t : Type := mk { filename : string; size : Z; type : string }.
End Meta.

(** A browser [File]: [size] is the length of its content. *)
Module File.
Record t : Type := mk { name : string; bytes : list byte; type : string }.

Definition size (f : t) : Z := Z.of_nat (length (bytes f)).

(** [file.slice(start, end).arrayBuffer()]: both ends are clamped to the
    file, a negative end counts from the end of the file, and an empty
    span gives an empty buffer. *)
Definition clamp (f : t) (i : Z) : Z :=
  if i <? 0 then Z.max (size f + i) 0 else Z.min i (size f).

Definition slice (f : t) (start stop : Z) : list byte :=
  let s := clamp f start in
  let e := clamp f stop in
  firstn (Z.to_nat (Z.max (e - s) 0)) (skipn (Z.to_nat s) (bytes f)).
End File.

(** [new Blob(chunks, { type })]. *)
Module Blob.
Record t : Type := mk { bytes : list byte; type : string }.

Definition of_parts (parts : list (list byte)) (ty : string) : t :=
  mk (concat parts) ty.

Definition size (b : t) : Z := Z.of_nat (length (bytes b)).
End Blob.

(** What the data channel carries: a string or an [ArrayBuffer].  The
    strings are those of the wire format, the serialised metadata object
    with an integral [size] (any integer: the receiver does not check it). *)
Inductive Frame : Type :=
| Text (m : Meta.t)
| Binary (data : list byte).

(** [event.data.byteLength] *)
Definition byteLength (data : list byte) : Z := Z.of_nat (length data).

(** ** The receiver: [setupReceive] *)

Module Receiver.

(** The variables captured by the [onmessage] closure. *)
Record State : Type := mkState {
  meta : option Meta.t;
  receivedBytes : Z;
  chunks : list (list byte)
}.

(** [let meta = null; let receivedBytes = 0; const chunks = [];] *)
Definition init : State := mkState None 0 [].

(** Calls the handler makes to the two callbacks it was given. *)
Inductive Call : Type :=
| OnProgress (pct : jsnum) (received total : Z)
| OnFileReceived (m : Meta.t) (blob : Blob.t).

(** One run of [dc.onmessage]; [onProgress] says whether a progress
    callback was supplied. *)
Definition onmessage (onProgress : bool) (st : State) (fr : Frame)
  : State * list Call :=
  match fr with
  | Text m =>
      (mkState (Some m) (receivedBytes st) (chunks st), [])
  | Binary data =>
      let chunks' := chunks st ++ [data] in
      let received' := receivedBytes st + byteLength data in
      let st' := mkState (meta st) received' chunks' in
      let progress :=
        match meta st with
        | Some m =>
            if onProgress
            then [OnProgress (percent received' (Meta.size m)) received' (Meta.size m)]
            else []
        | None => []
        end in
      let done :=
        match meta st with
        | Some m =>
            if received' =? Meta.size m
            then [OnFileReceived m (Blob.of_parts chunks' (Meta.type m))]
            else []
        | None => []
        end in
      (st', progress ++ done)
  end.

(** Frames handed to the handler one after the other. *)
Fixpoint deliver (onProgress : bool) (st : State) (frames : list Frame)
  : State * list Call :=
  match frames with
  | [] => (st, [])
  | fr :: rest =>
      let '(st1, calls1) := onmessage onProgress st fr in
      let '(st2, calls2) := deliver onProgress st1 rest in
      (st2, calls1 ++ calls2)
  end.

Definition completions (calls : list Call) : list (Meta.t * Blob.t) :=
  flat_map (fun c => match c with
                     | OnFileReceived m b => [(m, b)]
                     | OnProgress _ _ _ => []
                     end) calls.

Definition reported (calls : list Call) : list Z :=
  flat_map (fun c => match c with
                     | OnProgress _ received _ => [received]
                     | OnFileReceived _ _ => []
                     end) calls.

(** Total length of a sequence of buffers. *)
Definition total (datas : list (list byte)) : Z :=
  fold_right (fun d acc => byteLength d + acc) 0 datas.

End Receiver.

(** ** The sender: [sendFileOverRTC] *)

Module Sender.

(** [RTCDataChannel.readyState]. *)
Inductive ReadyState : Type := Connecting | Open | Closing | Closed.

(** The part of an [RTCDataChannel] the sender looks at. *)
Record Channel : Type := mkChannel {
  readyState : ReadyState;
  bufferedAmount : Z
}.

Definition is_open (ch : Channel) : bool :=
  match readyState ch with Open => true | _ => false end.

(** What happens to the channel while the sender is suspended in one
    [await]: the transport takes [drained] bytes out of the send queue
    and the channel may close.  Nobody else writes to the channel (one
    transfer owns it), so the queue does not grow there. *)
Record Tick : Type := mkTick { drained : N; closes : bool }.

Definition Env : Type := nat -> Tick.

Definition elapse (e : Tick) (ch : Channel) : Channel :=
  mkChannel (if closes e then Closed else readyState ch)
            (Z.max 0 (bufferedAmount ch - Z.of_N (drained e))).

Definition CHUNK_SIZE : Z := 64 * 1024.

(** [CHUNK_SIZE * 8], the bound of the backpressure loop. *)
Definition ceiling : Z := CHUNK_SIZE * 8.

(** The delay of [setTimeout(r, 20)]. *)
Definition POLL_MS : Z := 20.

(** What the sender does to the outside, in order. *)
Inductive Event : Type :=
| Write (buffered : Z) (fr : Frame)
    (* [dc.send(fr)]; [buffered] is [dc.bufferedAmount] at the call *)
| Poll (buffered : Z)
    (* the loop condition reads [dc.bufferedAmount] *)
| Sleep (ms : Z)
    (* [await new Promise((r) => setTimeout(r, ms))] *)
| ReadSlice (start stop : Z)
    (* [await file.slice(start, stop).arrayBuffer()] *)
| SetProgress (pct : jsnum) (bytes : Z).

Inductive Error : Type :=
| NotOpen        (* [new Error("DataChannel is not open")] *)
| InvalidState.  (* [dc.send] on a channel that is no longer open *)

(** How the promise returned by the function ends; [Pending] is a run
    that is still going when the fuel is spent. *)
Inductive Outcome : Type :=
| Resolved (ch : Channel)
| Rejected (e : Error) (dc : option Channel)
| Pending.

Definition Run : Type := (list Event * Outcome)%type.

Definition metadata (f : File.t) : Meta.t :=
  Meta.mk (File.name f) (File.size f) (File.type f).

Section WithPlatform.

(** Length in bytes of the serialised metadata, as the platform counts
    it in [bufferedAmount]. *)
Variable textBytes : Meta.t -> N.

Definition wireLength (fr : Frame) : Z :=
  match fr with
  | Text m => Z.of_N (textBytes m)
  | Binary data => byteLength data
  end.

(** [dc.send(fr)]: throws unless the channel is open, else queues. *)
Definition send (ch : Channel) (fr : Frame) : option Channel :=
  if is_open ch
  then Some (mkChannel (readyState ch) (bufferedAmount ch + wireLength fr))
  else None.

(** The channel once the metadata of [file] has been queued on it. *)
Definition queued (ch : Channel) (file : File.t) : Channel :=
  mkChannel (readyState ch)
            (bufferedAmount ch + Z.of_N (textBytes (metadata file))).

(** [while (dc.bufferedAmount > CHUNK_SIZE * 8) await ...20ms...]; the
    result is the time and the channel at which the loop is left. *)
Fixpoint backpressure (fuel : nat) (env : Env) (now : nat) (ch : Channel)
  : list Event * option (nat * Channel) :=
  match fuel with
  | O => ([], None)
  | S k =>
      if ceiling <? bufferedAmount ch
      then
        let '(tr, r) := backpressure k env (S now) (elapse (env now) ch) in
        (Poll (bufferedAmount ch) :: Sleep POLL_MS :: tr, r)
      else ([Poll (bufferedAmount ch)], Some (now, ch))
  end.

(** [while (offset < file.size) { ... }] *)
Fixpoint loop (fuel : nat) (env : Env) (now : nat) (ch : Channel)
    (file : File.t) (setProgress : bool) (offset : Z) : Run :=
  match fuel with
  | O => ([], Pending)
  | S k =>
      if offset <? File.size file then
        let '(tr1, r) := backpressure k env now ch in
        match r with
        | None => (tr1, Pending)
        | Some (now1, ch1) =>
            let buffer := File.slice file offset (offset + CHUNK_SIZE) in
            (* [await slice.arrayBuffer()] *)
            let ch2 := elapse (env now1) ch1 in
            match send ch2 (Binary buffer) with
            | None =>
                (tr1 ++ [ReadSlice offset (offset + CHUNK_SIZE)],
                 Rejected InvalidState (Some ch2))
            | Some ch3 =>
                let offset' := offset + CHUNK_SIZE in
                let progress :=
                  if setProgress
                  then [SetProgress (percent offset' (File.size file)) offset']
                  else [] in
                let '(tr2, out) :=
                  loop k env (S now1) ch3 file setProgress offset' in
                (tr1 ++ ReadSlice offset (offset + CHUNK_SIZE)
                     :: Write (bufferedAmount ch2) (Binary buffer)
                     :: progress ++ tr2, out)
            end
        end
      else ([], Resolved ch)
  end.

Definition sendFileOverRTC (fuel : nat) (env : Env) (file : File.t)
    (dc : option Channel) (setProgress : bool) : Run :=
  match dc with
  | None => ([], Rejected NotOpen dc)
  | Some ch =>
      if negb (is_open ch) then ([], Rejected NotOpen dc)
      else
        match send ch (Text (metadata file)) with
        | None => ([], Rejected InvalidState dc)
        | Some ch1 =>
            let '(tr, out) := loop fuel env 0 ch1 file setProgress 0 in
            (Write (bufferedAmount ch) (Text (metadata file)) :: tr, out)
        end
  end.

End WithPlatform.

(** Projections of a trace. *)
Definition frames (tr : list Event) : list Frame :=
  flat_map (fun e => match e with Write _ fr => [fr] | _ => [] end) tr.

Definition payloads (tr : list Event) : list (list byte) :=
  flat_map (fun e => match e with Write _ (Binary d) => [d] | _ => [] end) tr.

Definition progressCalls (tr : list Event) : list (jsnum * Z) :=
  flat_map (fun e => match e with SetProgress p b => [(p, b)] | _ => [] end) tr.

Definition resolved (o : Outcome) : bool :=
  match o with Resolved _ => true | _ => false end.

(** Number of chunks needed for [remaining] bytes: the least [n] with
    [remaining <= n * CHUNK_SIZE]. *)
Definition chunkCount (remaining : Z) : nat :=
  Z.to_nat ((remaining + CHUNK_SIZE - 1) / CHUNK_SIZE).

(** The next [n] slices the loop reads, starting at [offset]. *)
Fixpoint slices (n : nat) (file : File.t) (offset : Z) : list (list byte) :=
  match n with
  | O => []
  | S k =>
      File.slice file offset (offset + CHUNK_SIZE)
        :: slices k file (offset + CHUNK_SIZE)
  end.

(** The next [n] values [offset] takes. *)
Fixpoint offsets (n : nat) (offset : Z) : list Z :=
  match n with
  | O => []
  | S k => (offset + CHUNK_SIZE) :: offsets k (offset + CHUNK_SIZE)
  end.

(** What is left of the file from [offset] on. *)
Definition rest (file : File.t) (offset : Z) : list byte :=
  skipn (Z.to_nat offset) (File.bytes file).

(** The shape of every trace of the loop, whole or cut short: a read of
    [bufferedAmount] above the ceiling is followed by the 20 ms sleep and
    the next read; a read at or below it is followed by the reading of the
    slice and the write of that chunk (unless [dc.send] throws), made with
    the queue still at or below the ceiling. *)
Inductive polling : list Event -> Prop :=
| polling_stop : polling []
| polling_wait b tr :
    ceiling < b -> polling tr ->
    polling (Poll b :: Sleep POLL_MS :: tr)
| polling_write b start stop b' data tr :
    b <= ceiling -> b' <= ceiling -> polling tr ->
    polling (Poll b :: ReadSlice start stop :: Write b' (Binary data) :: tr)
| polling_write_report b start stop b' data p n tr :
    b <= ceiling -> b' <= ceiling -> polling tr ->
    polling (Poll b :: ReadSlice start stop :: Write b' (Binary data)
               :: SetProgress p n :: tr)
| polling_throw b start stop :
    b <= ceiling -> polling [Poll b; ReadSlice start stop].

(** A chunk is written only with at most [ceiling] bytes queued. *)
Definition write_ok (e : Event) : Prop :=
  match e with
  | Write buffered (Binary _) => buffered <= ceiling
  | _ => True
  end.

(** An environment that keeps the channel open and in which the
    transport makes progress during every suspension. *)
Definition live (env : Env) : Prop :=
  forall t, closes (env t) = false /\ (1 <= drained (env t))%N.

End Sender.

(** ** The negotiator: [createWebRTCConnection] *)

Module Negotiator.

Definition SDP : Type := string.
Definition Candidate : Type := string.

(** The [data] of a ["signal"] message, by its [type] field. *)
Inductive SignalData : Type :=
| OfferData (offer : SDP)
| AnswerData (answer : SDP)
| IceData (candidate : Candidate)
| OtherData (type : string).

(** What the function and its handlers do to the peer connection, the
    socket and the callbacks, in order. *)
Inductive Action : Type :=
| NewPeerConnection
| CreateDataChannel (label : string) (ordered : bool)
| EmitJoinRoom (code : string)
| EmitSignal (code : string) (data : SignalData)
| CreateOffer
| CreateAnswer
| SetLocalDescription (d : SDP)
| SetRemoteDescription (d : SDP)
| AddIceCandidate (c : Candidate)
| SetupReceive
| OnChannelOpen
| LogError.

(** The events the handlers are registered for. *)
Inductive Input : Type :=
| SocketSignal (data : SignalData)      (* socket.on("signal") *)
| SocketPeerJoined                      (* socket.on("peer-joined") *)
| IceCandidate (candidate : option Candidate)  (* pc.onicecandidate *)
| DataChannel                           (* pc.ondatachannel *)
| ChannelOpen                           (* dataChannel.onopen *)
| ChannelError.                         (* dataChannel.onerror *)

(** The answers of the browser's [RTCPeerConnection]: [None] and [false]
    are a rejected promise. *)
Record PeerConnection : Type := mkPC {
  createOffer : option SDP;
  createAnswer : option SDP;
  setLocalDescription : SDP -> bool;
  setRemoteDescription : SDP -> bool;
  addIceCandidate : Candidate -> bool
}.

(** The arguments of the call that the handlers close over. *)
Record Config : Type := mkConfig {
  code : string;
  isReceiver : bool;
  onChannelOpen : bool   (* was the callback supplied? *)
}.

(** [let dataChannel = null], as far as it is null or not. *)
Record State : Type := mkState { dataChannel : bool }.

(** The body of the function: everything it does before it returns. *)
Definition createWebRTCConnection (cfg : Config) : State * list Action :=
  (mkState (negb (isReceiver cfg)),
   NewPeerConnection
     :: (if isReceiver cfg then [] else [CreateDataChannel "file" true])
     ++ [EmitJoinRoom (code cfg)]).

(** [socket.on("signal", async (data) => { try { ... } catch ... })] *)
Definition onSignal (pc : PeerConnection) (cfg : Config) (data : SignalData)
  : list Action :=
  match data with
  | OfferData offer =>
      SetRemoteDescription offer ::
      if setRemoteDescription pc offer then
        CreateAnswer ::
        match createAnswer pc with
        | Some answer =>
            SetLocalDescription answer ::
            if setLocalDescription pc answer
            then [EmitSignal (code cfg) (AnswerData answer)]
            else [LogError]
        | None => [LogError]
        end
      else [LogError]
  | AnswerData answer =>
      SetRemoteDescription answer ::
      if setRemoteDescription pc answer then [] else [LogError]
  | IceData candidate =>
      AddIceCandidate candidate ::
      if addIceCandidate pc candidate then [] else [LogError]
  | OtherData _ => []
  end.

(** [socket.on("peer-joined", async () => { if (!isReceiver) ... })] *)
Definition onPeerJoined (pc : PeerConnection) (cfg : Config) : list Action :=
  if isReceiver cfg then []
  else
    CreateOffer ::
    match createOffer pc with
    | Some offer =>
        SetLocalDescription offer ::
        if setLocalDescription pc offer
        then [EmitSignal (code cfg) (OfferData offer)]
        else []
    | None => []
    end.

Definition handle (pc : PeerConnection) (cfg : Config) (st : State) (i : Input)
  : State * list Action :=
  match i with
  | SocketSignal data => (st, onSignal pc cfg data)
  | SocketPeerJoined => (st, onPeerJoined pc cfg)
  | IceCandidate (Some c) => (st, [EmitSignal (code cfg) (IceData c)])
  | IceCandidate None => (st, [])
  | DataChannel => (mkState true, [SetupReceive])
  | ChannelOpen => (st, if onChannelOpen cfg then [OnChannelOpen] else [])
  | ChannelError => (st, [LogError])
  end.

Fixpoint handleAll (pc : PeerConnection) (cfg : Config) (st : State)
    (inputs : list Input) : State * list Action :=
  match inputs with
  | [] => (st, [])
  | i :: more =>
      let '(st1, acts1) := handle pc cfg st i in
      let '(st2, acts2) := handleAll pc cfg st1 more in
      (st2, acts1 ++ acts2)
  end.

(** A session: the call, then the events in the order they arrive. *)
Definition session (pc : PeerConnection) (cfg : Config) (inputs : list Input)
  : list Action :=
  let '(st0, acts0) := createWebRTCConnection cfg in
  acts0 ++ snd (handleAll pc cfg st0 inputs).

(** Generating an offer, or sending one. *)
Definition offers (a : Action) : bool :=
  match a with
  | CreateOffer => true
  | EmitSignal _ (OfferData _) => true
  | _ => false
  end.

Definition is_peer_joined (i : Input) : bool :=
  match i with SocketPeerJoined => true | _ => false end.

End Negotiator.

(** ** The signaling relay: the server's socket handlers *)

Module Relay.

Definition SocketId : Type := string.
Definition Room : Type := string.

(** The rooms of the socket.io adapter: which socket is in which room, in
    the order of joining. *)
Definition State : Type := list (Room * SocketId).

Definition member (st : State) (room : Room) (sid : SocketId) : bool :=
  existsb (fun p => String.eqb (fst p) room && String.eqb (snd p) sid) st.

Definition members (st : State) (room : Room) : list SocketId :=
  map snd (filter (fun p => String.eqb (fst p) room) st).

(** [socket.join(room)]; a room is a set. *)
Definition join (st : State) (sid : SocketId) (room : Room) : State :=
  if member st room sid then st else st ++ [(room, sid)].

(** The sockets [socket.to(room)] addresses: those of the room, without
    the sending socket. *)
Definition others (st : State) (sid : SocketId) (room : Room) : list SocketId :=
  filter (fun s => negb (String.eqb s sid)) (members st room).

(** What a client's socket does to the server. *)
Inductive ClientEvent : Type :=
| Connect      (* the socket connects: it is put in the room of its own id *)
| JoinRoom (code : Room)                          (* emit("join-room", code) *)
| Signal (code : Room) (data : Negotiator.SignalData)
                                          (* emit("signal", { code, data }) *)
| Disconnect.  (* the socket is gone: it leaves all its rooms *)

(** What the server emits to a client's socket. *)
Inductive ServerMsg : Type :=
| PeerJoined                              (* emit("peer-joined") *)
| Relayed (data : Negotiator.SignalData). (* emit("signal", data) *)

Definition handle (st : State) (sid : SocketId) (e : ClientEvent)
  : State * list (SocketId * ServerMsg) :=
  match e with
  | Connect => (join st sid sid, [])
  | JoinRoom code =>
      let st' := join st sid code in
      (st', map (fun s => (s, PeerJoined)) (others st' sid code))
  | Signal code data =>
      (st, map (fun s => (s, Relayed data)) (others st sid code))
  | Disconnect =>
      (filter (fun p => negb (String.eqb (snd p) sid)) st, [])
  end.

(** The events of all sockets, in the order the server gets them. *)
Fixpoint run (st : State) (events : list (SocketId * ClientEvent))
  : State * list (SocketId * ServerMsg) :=
  match events with
  | [] => (st, [])
  | (sid, e) :: more =>
      let '(st1, out1) := handle st sid e in
      let '(st2, out2) := run st1 more in
      (st2, out1 ++ out2)
  end.

(** Does the event put its socket into a room? *)
Definition enters (e : ClientEvent) : bool :=
  match e with Connect | JoinRoom _ => true | _ => false end.

End Relay.

(** ** Two pages and the relay between them *)

Module Net.

(** A page that has called [initSignaling] and [createWebRTCConnection]. *)
Record Peer : Type := mkPeer {
  sid : Relay.SocketId;
  cfg : Negotiator.Config;
  pc : Negotiator.PeerConnection
}.

(** The socket emissions among the actions of a page. *)
Definition outgoing (acts : list Negotiator.Action) : list Relay.ClientEvent :=
  flat_map (fun a => match a with
                     | Negotiator.EmitJoinRoom code => [Relay.JoinRoom code]
                     | Negotiator.EmitSignal code data => [Relay.Signal code data]
                     | _ => []
                     end) acts.

(** The handler a server message runs on the page. *)
Definition incoming (m : Relay.ServerMsg) : Negotiator.Input :=
  match m with
  | Relay.PeerJoined => Negotiator.SocketPeerJoined
  | Relay.Relayed data => Negotiator.SocketSignal data
  end.

Record World : Type := mkWorld {
  relay : Relay.State;
  queue : list (Relay.SocketId * Relay.ClientEvent);  (* on their way to the server *)
  log : list (Relay.SocketId * Negotiator.Action)     (* what the pages have done *)
}.

Definition start : World := mkWorld [] [] [].

Definition lookup (peers : list Peer) (s : Relay.SocketId) : option Peer :=
  find (fun p => String.eqb (sid p) s) peers.

(** One server message reaches its page; the page's handler runs. *)
Definition react (peers : list Peer) (d : Relay.SocketId * Relay.ServerMsg)
  : list Negotiator.Action :=
  match lookup peers (fst d) with
  | Some p =>
      snd (Negotiator.handle (pc p) (cfg p)
             (Negotiator.mkState (negb (Negotiator.isReceiver (cfg p))))
             (incoming (snd d)))
  | None => []
  end.

(** The server takes the next event; every message it emits is handled by
    its page, whose own emissions go to the end of the queue. *)
Definition step (peers : list Peer) (w : World) : option World :=
  match queue w with
  | [] => None
  | (s, e) :: waiting =>
      let '(relay', out) := Relay.handle (relay w) s e in
      let done := map (fun d => (fst d, react peers d)) out in
      Some (mkWorld relay'
              (waiting ++ flat_map (fun r => map (pair (fst r)) (outgoing (snd r))) done)
              (log w ++ flat_map (fun r => map (pair (fst r)) (snd r)) done))
  end.

Fixpoint settle (fuel : nat) (peers : list Peer) (w : World) : World :=
  match fuel with
  | O => w
  | S k =>
      match step peers w with
      | None => w
      | Some w' => settle k peers w'
      end
  end.

(** A page opens: its socket connects and [createWebRTCConnection] runs. *)
Definition open (p : Peer) (w : World) : World :=
  let acts := snd (Negotiator.createWebRTCConnection (cfg p)) in
  mkWorld (relay w)
          (queue w ++ (sid p, Relay.Connect) :: map (pair (sid p)) (outgoing acts))
          (log w ++ map (pair (sid p)) acts).

(** The pages open one after the other, each when the exchange set off by
    the one before has come to rest. *)
Definition meet (fuel : nat) (peers : list Peer) : World :=
  fold_left (fun w p => settle fuel peers (open p w)) peers start.

End Net.

(** ** The page: the parts of [App] that are functions of their arguments *)

Module App.

(** [handleFileSelect]: [setFiles((prevFiles) => [...prevFiles, ...selectedFiles])] *)
Definition handleFileSelect {A : Type} (prevFiles selectedFiles : list A) : list A :=
  prevFiles ++ selectedFiles.

(** [array.filter((x, i) => keep(i))], from position [i] on. *)
Fixpoint filterIndex {A : Type} (keep : nat -> bool) (i : nat) (l : list A) : list A :=
  match l with
  | [] => []
  | x :: more =>
      if keep i then x :: filterIndex keep (S i) more
      else filterIndex keep (S i) more
  end.

(** [deleteFile]: [setFiles((prevFiles) => prevFiles.filter((_, i) => i !== index))] *)
Definition deleteFile {A : Type} (index : nat) (prevFiles : list A) : list A :=
  filterIndex (fun i => negb (Nat.eqb i index)) 0 prevFiles.

(** The updater of the one-second interval of [startSend]; the boolean
    says whether it calls [clearInterval]. *)
Definition tick (prev : Z) : Z * bool :=
  if prev <=? 1 then (0, true) else (prev - 1, false).

(** The interval runs [n] times at most, and no more once cleared. *)
Fixpoint countdown (n : nat) (remaining : Z) : Z * bool :=
  match n with
  | O => (remaining, false)
  | S k =>
      let '(next, cleared) := tick remaining in
      if cleared then (next, true) else countdown k next
  end.

(** [setTimeRemaining(5 * 60)] *)
Definition CODE_LIFETIME : Z := 5 * 60.

(** What both branches of [performFileSend] do with the channel:
    [setStatus("sending"); await sendFileOverRTC(fileToSend, dc,
    progressCallback); setStatus("sent")].  The result is the run and the
    statuses set, in order; the second is set only if the promise
    resolves. *)
Definition sendAndReport (textBytes : Meta.t -> N) (fuel : nat) (env : Sender.Env)
    (file : File.t) (dc : Sender.Channel) : Sender.Run * list string :=
  let run := Sender.sendFileOverRTC textBytes fuel env file (Some dc) true in
  (run, "sending"%string
          :: if Sender.resolved (snd run) then ["sent"%string] else []).

(** [performFileSend], as far as the status and the channel go; [rtcObj]
    is [None] for a null object and holds what [getDataChannel()] returns.
    The result is the statuses set and the run of [sendFileOverRTC], if
    the function gets to it; on a channel that is not open it sets a
    handler on [onopen] instead. *)
Definition performFileSend (textBytes : Meta.t -> N) (fuel : nat) (env : Sender.Env)
    (fileToSend : option File.t) (rtcObj : option (option Sender.Channel))
  : list string * option Sender.Run :=
  match fileToSend, rtcObj with
  | Some file, Some (Some dc) =>
      if negb (Sender.is_open dc)
      then (["waiting-for-connection"%string], None)
      else
        let '(run, statuses) := sendAndReport textBytes fuel env file dc in
        (statuses, Some run)
  | _, _ => ([], None)
  end.

(** The channel as an [open] event leaves it. *)
Definition opened (dc : Sender.Channel) : Sender.Channel :=
  Sender.mkChannel Sender.Open (Sender.bufferedAmount dc).

(** The handler [performFileSend] sets on [dc.onopen], run by the [open]
    event of the channel. *)
Definition onopen (textBytes : Meta.t -> N) (fuel : nat) (env : Sender.Env)
    (file : File.t) (dc : Sender.Channel) : Sender.Run * list string :=
  sendAndReport textBytes fuel env file (opened dc).

End App.

(** ** The object [createWebRTCConnection] returns *)

Module Connection.
Import Negotiator.

(** [getDataChannel: () => dataChannel], called when the events [inputs]
    have been handled: is the channel it returns not null? *)
Definition getDataChannel (pc : PeerConnection) (cfg : Config) (inputs : list Input)
  : bool :=
  dataChannel (fst (handleAll pc cfg (fst (createWebRTCConnection cfg)) inputs)).

Definition is_data_channel (i : Input) : bool :=
  match i with DataChannel => true | _ => false end.

Definition is_setup (a : Action) : bool :=
  match a with SetupReceive => true | _ => false end.

End Connection.

(** ** What a sequence of frames carries *)

Module Wire.

(** The buffers of the binary frames, in order. *)
Definition binaries (frames : list Frame) : list (list byte) :=
  flat_map (fun fr => match fr with Binary data => [data] | Text _ => [] end) frames.

End Wire.

(** ** Sample pages *)

Module Pages.

Definition socketA : Relay.SocketId := "socket-a"%string.
Definition socketB : Relay.SocketId := "socket-b"%string.
Definition socketC : Relay.SocketId := "socket-c"%string.
Definition room : Relay.Room := "123456"%string.
Definition offerSdp : Negotiator.SDP := "offer-sdp"%string.
Definition answerSdp : Negotiator.SDP := "answer-sdp"%string.

(** A peer connection on which every call succeeds. *)
Definition willing : Negotiator.PeerConnection :=
  Negotiator.mkPC (Some offerSdp) (Some answerSdp)
    (fun _ => true) (fun _ => true) (fun _ => true).

Definition initiator : Net.Peer :=
  Net.mkPeer socketA (Negotiator.mkConfig room false true) willing.

Definition responder : Net.Peer :=
  Net.mkPeer socketB (Negotiator.mkConfig room true true) willing.

End Pages.

(** ** Sample inputs *)

Module Samples.
Import Sender.

(** An environment in which one byte leaves the queue per suspension. *)
Definition steady : Env := fun _ => mkTick 1 false.

(** An environment in which nothing ever leaves the queue. *)
Definition stalled : Env := fun _ => mkTick 0 false.

(** A platform that counts 80 bytes for every metadata string. *)
Definition eighty : Meta.t -> N := fun _ => 80%N.

Definition fresh : Channel := mkChannel Open 0.

Definition tiny : File.t :=
  File.mk "tiny.bin" [x01; x02; x03] "application/octet-stream".

(** The 150000-byte file of the design's scenario. *)
Definition scenario : File.t :=
  File.mk "scenario.bin" (repeat x00 (Z.to_nat 150000)) "application/octet-stream".

(** A file one chunk larger than [tiny]. *)
Definition grown : File.t :=
  File.mk "grown.bin" (repeat x07 (Z.to_nat 65539)) "text/plain".

End Samples.

(** ** Facts about the receiver *)

Module ReceiverFacts.
Import Receiver.

Lemma byteLength_nonneg (data : list byte) : 0 <= byteLength data.
Proof. unfold byteLength. lia. Qed.

Lemma byteLength_app (a b : list byte) :
  byteLength (a ++ b) = byteLength a + byteLength b.
Proof. unfold byteLength. rewrite length_app. lia. Qed.

Lemma completions_app (a b : list Call) :
  completions (a ++ b) = completions a ++ completions b.
Proof. apply flat_map_app. Qed.

Lemma reported_app (a b : list Call) :
  reported (a ++ b) = reported a ++ reported b.
Proof. apply flat_map_app. Qed.

(** The handler never lowers the counter. *)
Lemma onmessage_received_le onProgress st fr :
  receivedBytes st <= receivedBytes (fst (onmessage onProgress st fr)).
Proof.
  destruct fr as [m | data]; simpl; [lia |].
  pose proof (byteLength_nonneg data). lia.
Qed.

Lemma deliver_cons onProgress st fr rest :
  deliver onProgress st (fr :: rest) =
  (fst (deliver onProgress (fst (onmessage onProgress st fr)) rest),
   snd (onmessage onProgress st fr)
     ++ snd (deliver onProgress (fst (onmessage onProgress st fr)) rest)).
Proof.
  simpl. destruct (onmessage onProgress st fr) as [st1 c1]. simpl.
  destruct (deliver onProgress st1 rest) as [st2 c2]. reflexivity.
Qed.

Lemma deliver_app onProgress xs : forall st ys,
  deliver onProgress st (xs ++ ys) =
  (fst (deliver onProgress (fst (deliver onProgress st xs)) ys),
   snd (deliver onProgress st xs)
     ++ snd (deliver onProgress (fst (deliver onProgress st xs)) ys)).
Proof.
  induction xs as [| fr xs IH]; intros st ys.
  - simpl. destruct (deliver onProgress st ys); reflexivity.
  - rewrite <- app_comm_cons, !deliver_cons, IH. simpl.
    now rewrite app_assoc.
Qed.

Lemma deliver_received_le onProgress frames : forall st,
  receivedBytes st <= receivedBytes (fst (deliver onProgress st frames)).
Proof.
  induction frames as [| fr rest IH]; intros st; [simpl; lia |].
  rewrite deliver_cons. simpl.
  pose proof (onmessage_received_le onProgress st fr).
  specialize (IH (fst (onmessage onProgress st fr))). lia.
Qed.

(** A completion call pins down the frame and the counter. *)
Lemma onmessage_completion onProgress st fr m blob :
  In (OnFileReceived m blob) (snd (onmessage onProgress st fr)) ->
  exists data,
    fr = Binary data /\
    meta st = Some m /\
    receivedBytes st + byteLength data = Meta.size m /\
    blob = Blob.of_parts (chunks st ++ [data]) (Meta.type m).
Proof.
  destruct fr as [m' | data]; simpl; [intros [] |].
  intros H. exists data. apply in_app_or in H.
  destruct (meta st) as [m0 |]; [| destruct H as [[] | []]].
  destruct H as [H | H].
  - destruct onProgress; simpl in H; [destruct H as [H | []]; discriminate | destruct H].
  - destruct (Z.eqb_spec (receivedBytes st + byteLength data) (Meta.size m0)) as [E | E];
      simpl in H; [| destruct H].
    destruct H as [H | []]. injection H as -> ->. auto.
Qed.

(** Once the counter is past the declared size, frames that do not
    declare another size complete nothing. *)
Lemma deliver_overshoot onProgress frames : forall st m,
  meta st = Some m ->
  Meta.size m < receivedBytes st ->
  (forall m', In (Text m') frames -> Meta.size m' = Meta.size m) ->
  completions (snd (deliver onProgress st frames)) = [].
Proof.
  induction frames as [| fr rest IH]; intros st m Hm Hlt Hsame; [reflexivity |].
  rewrite deliver_cons. simpl snd. rewrite completions_app.
  destruct fr as [m' | data].
  - simpl. apply (IH _ m'); simpl.
    + reflexivity.
    + rewrite (Hsame m') by (left; reflexivity). exact Hlt.
    + intros m'' Hin. rewrite (Hsame m'') by (right; exact Hin).
      symmetry. apply Hsame. left; reflexivity.
  - assert (Hne : (receivedBytes st + byteLength data =? Meta.size m) = false).
    { apply Z.eqb_neq. pose proof (byteLength_nonneg data). lia. }
    simpl. rewrite Hm, Hne, app_nil_r.
    replace (completions _) with (@nil (Meta.t * Blob.t))
      by (destruct onProgress; reflexivity).
    simpl. apply (IH _ m); simpl.
    + reflexivity.
    + pose proof (byteLength_nonneg data). lia.
    + intros m'' Hin. apply Hsame. right; exact Hin.
Qed.

Lemma total_cons (d : list byte) (ds : list (list byte)) :
  total (d :: ds) = byteLength d + total ds.
Proof. reflexivity. Qed.

Lemma total_nonneg (datas : list (list byte)) : 0 <= total datas.
Proof.
  induction datas as [| d ds IH]; [simpl; lia |].
  rewrite total_cons. pose proof (byteLength_nonneg d). lia.
Qed.

Lemma total_concat (datas : list (list byte)) :
  total datas = byteLength (concat datas).
Proof.
  induction datas as [| d ds IH]; simpl; [reflexivity |].
  rewrite byteLength_app, IH. reflexivity.
Qed.

Lemma deliver_before_metadata onProgress datas : forall received parts,
  deliver onProgress (mkState None received parts) (map Binary datas) =
  (mkState None (received + total datas) (parts ++ datas), []).
Proof.
  induction datas as [| d ds IH]; intros received parts.
  - simpl. now rewrite Z.add_0_r, app_nil_r.
  - change (map Binary (d :: ds)) with (Binary d :: map Binary ds).
    rewrite deliver_cons. simpl. rewrite IH. simpl.
    rewrite <- app_assoc. simpl. f_equal. f_equal. lia.
Qed.

(** The counts reported to [onProgress] never go down. *)
Lemma deliver_reported_sorted onProgress frames : forall st,
  Forall (Z.le (receivedBytes st)) (reported (snd (deliver onProgress st frames))) /\
  StronglySorted Z.le (reported (snd (deliver onProgress st frames))).
Proof.
  induction frames as [| fr rest IH]; intros st.
  - simpl. split; constructor.
  - rewrite deliver_cons. simpl snd. rewrite reported_app.
    pose proof (onmessage_received_le onProgress st fr) as Hle.
    destruct (IH (fst (onmessage onProgress st fr))) as [Hall Hsorted].
    assert (Hall' : Forall (Z.le (receivedBytes st))
              (reported (snd (deliver onProgress (fst (onmessage onProgress st fr)) rest)))).
    { eapply Forall_impl; [| exact Hall]. simpl. intros; lia. }
    destruct fr as [m | data]; [simpl; auto |].
    simpl in *. destruct (meta st) as [m |]; [| simpl; auto].
    destruct onProgress;
      destruct (receivedBytes st + byteLength data =? Meta.size m); simpl; auto.
    all: split; [constructor; [lia | exact Hall'] | constructor; assumption].
Qed.

End ReceiverFacts.

(** ** Facts about the sender *)

Module SenderFacts.
Import Sender.

Lemma CHUNK_SIZE_eq : CHUNK_SIZE = 65536.
Proof. reflexivity. Qed.

Lemma ceiling_eq : ceiling = 524288.
Proof. reflexivity. Qed.

Lemma CHUNK_SIZE_pos : 0 < CHUNK_SIZE.
Proof. rewrite CHUNK_SIZE_eq. lia. Qed.

(** *** Arithmetic of the chunk count *)

Lemma chunkCount_bounds (r : Z) :
  0 < r ->
  CHUNK_SIZE * (Z.of_nat (chunkCount r) - 1) < r <= CHUNK_SIZE * Z.of_nat (chunkCount r).
Proof.
  intros Hr. unfold chunkCount.
  pose proof CHUNK_SIZE_pos as Hc.
  pose proof (Z.div_mod (r + CHUNK_SIZE - 1) CHUNK_SIZE ltac:(lia)) as Hdm.
  pose proof (Z.mod_pos_bound (r + CHUNK_SIZE - 1) CHUNK_SIZE Hc) as Hm.
  assert (0 <= (r + CHUNK_SIZE - 1) / CHUNK_SIZE)
    by (apply Z.div_pos; lia).
  rewrite Z2Nat.id by assumption. lia.
Qed.

Lemma chunkCount_nonpos (r : Z) : r <= 0 -> chunkCount r = O.
Proof.
  intros Hr. unfold chunkCount.
  pose proof CHUNK_SIZE_pos as Hc.
  assert ((r + CHUNK_SIZE - 1) / CHUNK_SIZE <= 0).
  { destruct (Z.eq_dec r 0) as [-> | Hne].
    - rewrite Z.div_small by lia. lia.
    - assert ((r + CHUNK_SIZE - 1) / CHUNK_SIZE < 1); [| lia].
      apply Z.div_lt_upper_bound; lia. }
  lia.
Qed.

Lemma chunkCount_step (r : Z) :
  0 < r -> chunkCount r = S (chunkCount (r - CHUNK_SIZE)).
Proof.
  intros Hr. unfold chunkCount.
  pose proof CHUNK_SIZE_pos as Hc.
  replace (r + CHUNK_SIZE - 1) with (r - CHUNK_SIZE + CHUNK_SIZE - 1 + 1 * CHUNK_SIZE) by lia.
  rewrite Z.div_add by lia.
  replace (r - CHUNK_SIZE + CHUNK_SIZE - 1) with (r - 1) by lia.
  assert (0 <= (r - 1) / CHUNK_SIZE) by (apply Z.div_pos; lia).
  rewrite Z2Nat.inj_add by lia. simpl (Z.to_nat 1). lia.
Qed.

(** *** Slicing *)

Lemma slice_in_range (f : File.t) (a b : Z) :
  0 <= a -> a <= b ->
  File.slice f a b =
  firstn (Z.to_nat (Z.min b (File.size f) - Z.min a (File.size f)))
         (rest f (Z.min a (File.size f))).
Proof.
  intros Ha Hab. unfold File.slice, File.clamp, rest.
  assert (0 <= File.size f) by (unfold File.size; lia).
  destruct (Z.ltb_spec a 0); [lia |].
  destruct (Z.ltb_spec b 0); [lia |].
  f_equal. lia.
Qed.

Lemma slice_byteLength (f : File.t) (a b : Z) :
  0 <= a -> a <= b ->
  byteLength (File.slice f a b) = Z.min b (File.size f) - Z.min a (File.size f).
Proof.
  intros Ha Hab. rewrite slice_in_range by assumption.
  unfold byteLength, rest, File.size.
  rewrite length_firstn, length_skipn. lia.
Qed.

Lemma rest_past_end (f : File.t) (o : Z) :
  File.size f <= o -> rest f o = [].
Proof.
  intros H. unfold rest. apply skipn_all2. unfold File.size in H. lia.
Qed.

(** A slice followed by what lies behind it is what lay ahead. *)
Lemma slice_rest (f : File.t) (o : Z) :
  0 <= o ->
  File.slice f o (o + CHUNK_SIZE) ++ rest f (o + CHUNK_SIZE) = rest f o.
Proof.
  intros Ho. pose proof CHUNK_SIZE_pos as Hc.
  rewrite slice_in_range by lia.
  destruct (Z.le_gt_cases (File.size f) o) as [Hout | Hin].
  - rewrite (rest_past_end f (o + CHUNK_SIZE)) by lia.
    rewrite (rest_past_end f o) by lia.
    rewrite (rest_past_end f (Z.min o (File.size f))) by lia.
    now rewrite firstn_nil.
  - replace (Z.min o (File.size f)) with o by lia.
    destruct (Z.le_gt_cases (File.size f) (o + CHUNK_SIZE)) as [Hlast | Hmore].
    + rewrite (rest_past_end f (o + CHUNK_SIZE)) by lia.
      rewrite app_nil_r. apply firstn_all2.
      unfold rest. rewrite length_skipn. unfold File.size in *. lia.
    + replace (Z.min (o + CHUNK_SIZE) (File.size f) - o) with CHUNK_SIZE by lia.
      unfold rest. replace (Z.to_nat (o + CHUNK_SIZE))
        with (Z.to_nat CHUNK_SIZE + Z.to_nat o)%nat by lia.
      rewrite <- skipn_skipn. apply firstn_skipn.
Qed.

Lemma slices_length (n : nat) (f : File.t) : forall o,
  length (slices n f o) = n.
Proof. induction n as [| n IH]; intros o; simpl; [| rewrite IH]; reflexivity. Qed.

Lemma slices_concat (n : nat) (f : File.t) : forall o,
  0 <= o ->
  concat (slices n f o) ++ rest f (o + Z.of_nat n * CHUNK_SIZE) = rest f o.
Proof.
  pose proof CHUNK_SIZE_pos as Hc.
  induction n as [| n IH]; intros o Ho.
  - simpl. f_equal. lia.
  - cbn [slices concat]. rewrite <- app_assoc.
    replace (o + Z.of_nat (S n) * CHUNK_SIZE)
      with (o + CHUNK_SIZE + Z.of_nat n * CHUNK_SIZE) by lia.
    rewrite IH by lia. apply slice_rest. exact Ho.
Qed.

Lemma slices_nth (n : nat) (f : File.t) : forall o i,
  (i < n)%nat ->
  nth i (slices n f o) [] =
  File.slice f (o + Z.of_nat i * CHUNK_SIZE) (o + Z.of_nat i * CHUNK_SIZE + CHUNK_SIZE).
Proof.
  induction n as [| n IH]; intros o i Hi; [lia |].
  destruct i as [| i]; cbn [slices nth].
  - f_equal; lia.
  - rewrite IH by lia. f_equal; lia.
Qed.

(** *** Projections of traces *)

Lemma frames_app (a b : list Event) : frames (a ++ b) = frames a ++ frames b.
Proof. apply flat_map_app. Qed.

Lemma payloads_app (a b : list Event) : payloads (a ++ b) = payloads a ++ payloads b.
Proof. apply flat_map_app. Qed.

Lemma progressCalls_app (a b : list Event) :
  progressCalls (a ++ b) = progressCalls a ++ progressCalls b.
Proof. apply flat_map_app. Qed.

Lemma frames_cons (e : Event) (l : list Event) :
  frames (e :: l) =
  match e with Write _ fr => [fr] | _ => [] end ++ frames l.
Proof. reflexivity. Qed.

Lemma payloads_cons (e : Event) (l : list Event) :
  payloads (e :: l) =
  match e with Write _ (Binary d) => [d] | _ => [] end ++ payloads l.
Proof. reflexivity. Qed.

Lemma progressCalls_cons (e : Event) (l : list Event) :
  progressCalls (e :: l) =
  match e with SetProgress p b => [(p, b)] | _ => [] end ++ progressCalls l.
Proof. reflexivity. Qed.

(** Push the projections through a trace written out with [::] and [++]. *)
Ltac project :=
  repeat rewrite ?frames_app, ?payloads_app, ?progressCalls_app,
                 ?frames_cons, ?payloads_cons, ?progressCalls_cons;
  cbn [app frames payloads progressCalls flat_map].

(** *** The backpressure loop *)

(** A suspension never adds to the queue. *)
Lemma elapse_buffered_le (e : Tick) (ch : Channel) :
  bufferedAmount (elapse e ch) <= Z.max 0 (bufferedAmount ch).
Proof. unfold elapse; simpl. lia. Qed.

Lemma elapse_live (env : Env) (t : nat) (ch : Channel) :
  live env -> readyState (elapse (env t) ch) = readyState ch.
Proof. intros Hl. destruct (Hl t) as [Hc _]. unfold elapse; simpl. now rewrite Hc. Qed.

Lemma elapse_live_drains (env : Env) (t : nat) (ch : Channel) :
  live env -> 0 < bufferedAmount ch ->
  bufferedAmount (elapse (env t) ch) <= bufferedAmount ch - 1.
Proof. intros Hl Hb. destruct (Hl t) as [_ Hd]. unfold elapse; simpl. lia. Qed.

(** The loop only reads and sleeps. *)
Lemma backpressure_quiet (fuel : nat) (env : Env) : forall now ch,
  frames (fst (backpressure fuel env now ch)) = [] /\
  payloads (fst (backpressure fuel env now ch)) = [] /\
  progressCalls (fst (backpressure fuel env now ch)) = [].
Proof.
  induction fuel as [| k IH]; intros now ch; cbn [backpressure]; [auto |].
  destruct (ceiling <? bufferedAmount ch); [| auto].
  specialize (IH (S now) (elapse (env now) ch)).
  destruct (backpressure k env (S now) (elapse (env now) ch)) as [tr r].
  exact IH.
Qed.

(** It is left with the queue at or below the ceiling, after a last read
    of that very amount; whatever sleeping came before fits [polling]. *)
Lemma backpressure_exit (fuel : nat) (env : Env) : forall now ch tr now' ch',
  backpressure fuel env now ch = (tr, Some (now', ch')) ->
  bufferedAmount ch' <= ceiling /\
  exists waits,
    tr = waits ++ [Poll (bufferedAmount ch')] /\
    forall tl, polling (Poll (bufferedAmount ch') :: tl) ->
               polling (waits ++ Poll (bufferedAmount ch') :: tl).
Proof.
  induction fuel as [| k IH]; intros now ch tr now' ch' H; cbn [backpressure] in H;
    [discriminate |].
  destruct (Z.ltb_spec ceiling (bufferedAmount ch)) as [Hhigh | Hlow].
  - destruct (backpressure k env (S now) (elapse (env now) ch)) as [tr0 r0] eqn:E.
    injection H as <- ->.
    destruct (IH _ _ _ _ _ E) as [Hle [waits [-> Hpol]]].
    split; [exact Hle |].
    exists (Poll (bufferedAmount ch) :: Sleep POLL_MS :: waits). split; [reflexivity |].
    intros tl Htl. cbn [app]. apply polling_wait; [exact Hhigh | apply Hpol, Htl].
  - injection H as <- <- <-. split; [exact Hlow |].
    exists []. split; [reflexivity | intros tl Htl; exact Htl].
Qed.

(** Cut short, its trace is sleeping only. *)
Lemma backpressure_pending (fuel : nat) (env : Env) : forall now ch tr,
  backpressure fuel env now ch = (tr, None) -> polling tr.
Proof.
  induction fuel as [| k IH]; intros now ch tr H; cbn [backpressure] in H.
  - injection H as <-. constructor.
  - destruct (Z.ltb_spec ceiling (bufferedAmount ch)) as [Hhigh | Hlow]; [| discriminate].
    destruct (backpressure k env (S now) (elapse (env now) ch)) as [tr0 r0] eqn:E.
    injection H as <- ->. apply polling_wait; [exact Hhigh | eapply IH, E].
Qed.

Lemma backpressure_live (fuel : nat) (env : Env) : forall now ch tr now' ch',
  live env ->
  backpressure fuel env now ch = (tr, Some (now', ch')) ->
  readyState ch' = readyState ch.
Proof.
  induction fuel as [| k IH]; intros now ch tr now' ch' Hl H; cbn [backpressure] in H;
    [discriminate |].
  destruct (ceiling <? bufferedAmount ch).
  - destruct (backpressure k env (S now) (elapse (env now) ch)) as [tr0 r0] eqn:E.
    injection H as <- ->. rewrite (IH _ _ _ _ _ Hl E). now apply elapse_live.
  - now injection H as <- <- <-.
Qed.

(** More fuel does not change a finished run of the loop. *)
Lemma backpressure_mono (fuel : nat) (env : Env) : forall now ch tr r fuel',
  backpressure fuel env now ch = (tr, Some r) ->
  (fuel <= fuel')%nat ->
  backpressure fuel' env now ch = (tr, Some r).
Proof.
  induction fuel as [| k IH]; intros now ch tr r fuel' H Hle; cbn [backpressure] in H;
    [discriminate |].
  destruct fuel' as [| k']; [lia |]. cbn [backpressure].
  destruct (ceiling <? bufferedAmount ch); [| exact H].
  destruct (backpressure k env (S now) (elapse (env now) ch)) as [tr0 r0] eqn:E.
  injection H as <- ->.
  rewrite (IH _ _ _ _ k' E) by lia. reflexivity.
Qed.

(** In a live environment the loop is left after finitely many sleeps. *)
Lemma backpressure_terminates (env : Env) (Hl : live env) (fuel : nat) : forall now ch,
  (Z.to_nat (bufferedAmount ch) < fuel)%nat ->
  exists tr r, backpressure fuel env now ch = (tr, Some r).
Proof.
  induction fuel as [| k IH]; intros now ch Hf; [lia |]. cbn [backpressure].
  destruct (Z.ltb_spec ceiling (bufferedAmount ch)) as [Hhigh | Hlow].
  - rewrite ceiling_eq in Hhigh.
    pose proof (elapse_live_drains env now ch Hl ltac:(lia)) as Hd.
    destruct (IH (S now) (elapse (env now) ch) ltac:(lia)) as [tr [r E]].
    rewrite E. eauto.
  - eauto.
Qed.

(** *** The chunk loop *)

Section Loop.
Variable textBytes : Meta.t -> N.

Lemma send_open (ch : Channel) (fr : Frame) :
  is_open ch = true ->
  send textBytes ch fr =
  Some (mkChannel (readyState ch) (bufferedAmount ch + wireLength textBytes fr)).
Proof. intros H. unfold send. now rewrite H. Qed.

(** One turn of the loop, when it gets as far as the write. *)
Lemma loop_turn (k : nat) (env : Env) (now : nat) (ch : Channel)
    (f : File.t) (hp : bool) (offset : Z) tr1 now1 ch1 ch3 :
  offset < File.size f ->
  backpressure k env now ch = (tr1, Some (now1, ch1)) ->
  send textBytes (elapse (env now1) ch1)
       (Binary (File.slice f offset (offset + CHUNK_SIZE))) = Some ch3 ->
  loop textBytes (S k) env now ch f hp offset =
  (tr1 ++ ReadSlice offset (offset + CHUNK_SIZE)
       :: Write (bufferedAmount (elapse (env now1) ch1))
                (Binary (File.slice f offset (offset + CHUNK_SIZE)))
       :: (if hp
           then [SetProgress (percent (offset + CHUNK_SIZE) (File.size f))
                             (offset + CHUNK_SIZE)]
           else [])
       ++ fst (loop textBytes k env (S now1) ch3 f hp (offset + CHUNK_SIZE)),
   snd (loop textBytes k env (S now1) ch3 f hp (offset + CHUNK_SIZE))).
Proof.
  intros Hlt Hbp Hsend. cbn [loop].
  destruct (Z.ltb_spec offset (File.size f)); [| lia].
  rewrite Hbp, Hsend.
  destruct (loop textBytes k env (S now1) ch3 f hp (offset + CHUNK_SIZE)).
  reflexivity.
Qed.

(** Every way a turn of the loop can go. *)
Lemma loop_cases (k : nat) (env : Env) (now : nat) (ch : Channel)
    (f : File.t) (hp : bool) (offset : Z) :
  (File.size f <= offset /\
   loop textBytes (S k) env now ch f hp offset = ([], Resolved ch)) \/
  (offset < File.size f /\
   exists tr1, backpressure k env now ch = (tr1, None) /\
     loop textBytes (S k) env now ch f hp offset = (tr1, Pending)) \/
  (offset < File.size f /\
   exists tr1 now1 ch1, backpressure k env now ch = (tr1, Some (now1, ch1)) /\
     send textBytes (elapse (env now1) ch1)
          (Binary (File.slice f offset (offset + CHUNK_SIZE))) = None /\
     loop textBytes (S k) env now ch f hp offset =
     (tr1 ++ [ReadSlice offset (offset + CHUNK_SIZE)],
      Rejected InvalidState (Some (elapse (env now1) ch1)))) \/
  (offset < File.size f /\
   exists tr1 now1 ch1 ch3, backpressure k env now ch = (tr1, Some (now1, ch1)) /\
     send textBytes (elapse (env now1) ch1)
          (Binary (File.slice f offset (offset + CHUNK_SIZE))) = Some ch3).
Proof.
  destruct (Z.ltb_spec offset (File.size f)) as [Hlt | Hge].
  - right.
    destruct (backpressure k env now ch) as [tr1 [[now1 ch1] |]] eqn:Hbp.
    + destruct (send textBytes (elapse (env now1) ch1)
                  (Binary (File.slice f offset (offset + CHUNK_SIZE)))) as [ch3 |] eqn:Hs.
      * right; right. split; [exact Hlt |]. exists tr1, now1, ch1, ch3. auto.
      * right; left. split; [exact Hlt |]. exists tr1, now1, ch1.
        split; [reflexivity |]. split; [exact Hs |].
        cbn [loop]. destruct (Z.ltb_spec offset (File.size f)); [| lia].
        now rewrite Hbp, Hs.
    + left. split; [exact Hlt |]. exists tr1. split; [reflexivity |].
      cbn [loop]. destruct (Z.ltb_spec offset (File.size f)); [| lia].
      now rewrite Hbp.
  - left. split; [exact Hge |].
    cbn [loop]. destruct (Z.ltb_spec offset (File.size f)); [lia | reflexivity].
Qed.

(** The trace of the loop has the shape [polling], however it ends. *)
Lemma loop_polling (fuel : nat) (env : Env) (f : File.t) (hp : bool) :
  forall now ch offset, polling (fst (loop textBytes fuel env now ch f hp offset)).
Proof.
  induction fuel as [| k IH]; intros now ch offset; [constructor |].
  destruct (loop_cases k env now ch f hp offset)
    as [[_ E] | [[_ [tr1 [Hbp E]]] | [[_ [tr1 [now1 [ch1 [Hbp [Hs E]]]]]]
                                     | [Hlt [tr1 [now1 [ch1 [ch3 [Hbp Hs]]]]]]]]].
  - rewrite E. constructor.
  - rewrite E. simpl. eapply backpressure_pending, Hbp.
  - rewrite E. simpl.
    destruct (backpressure_exit _ _ _ _ _ _ _ Hbp) as [Hle [waits [-> Hpol]]].
    rewrite <- app_assoc. cbn [app]. apply Hpol. now apply polling_throw.
  - rewrite (loop_turn _ _ _ _ _ _ _ _ _ _ _ Hlt Hbp Hs). cbn [fst].
    destruct (backpressure_exit _ _ _ _ _ _ _ Hbp) as [Hle [waits [-> Hpol]]].
    rewrite <- app_assoc. cbn [app]. apply Hpol.
    assert (Hb' : bufferedAmount (elapse (env now1) ch1) <= ceiling).
    { pose proof (elapse_buffered_le (env now1) ch1). rewrite ceiling_eq in *. lia. }
    specialize (IH (S now1) ch3 (offset + CHUNK_SIZE)).
    destruct hp; cbn [app].
    + now apply polling_write_report.
    + now apply polling_write.
Qed.

Lemma polling_write_ok (tr : list Event) : polling tr -> Forall write_ok tr.
Proof.
  induction 1; repeat (constructor; simpl; auto).
Qed.

(** The values handed to [setProgress] grow strictly, from beyond the
    offset at which the loop is entered. *)
Lemma loop_progress_increasing (fuel : nat) (env : Env) (f : File.t) (hp : bool) :
  forall now ch offset,
    Forall (Z.lt offset)
      (map snd (progressCalls (fst (loop textBytes fuel env now ch f hp offset)))) /\
    StronglySorted Z.lt
      (map snd (progressCalls (fst (loop textBytes fuel env now ch f hp offset)))).
Proof.
  pose proof CHUNK_SIZE_pos as Hc.
  induction fuel as [| k IH]; intros now ch offset; [split; constructor |].
  destruct (loop_cases k env now ch f hp offset)
    as [[_ E] | [[_ [tr1 [Hbp E]]] | [[_ [tr1 [now1 [ch1 [Hbp [Hs E]]]]]]
                                     | [Hlt [tr1 [now1 [ch1 [ch3 [Hbp Hs]]]]]]]]].
  - rewrite E. split; constructor.
  - rewrite E. cbn [fst].
    pose proof (backpressure_quiet k env now ch) as [_ [_ Hq]].
    rewrite Hbp in Hq. cbn [fst] in Hq. rewrite Hq. split; constructor.
  - rewrite E. cbn [fst].
    pose proof (backpressure_quiet k env now ch) as [_ [_ Hq]].
    rewrite Hbp in Hq. cbn [fst] in Hq.
    rewrite progressCalls_app, Hq. split; constructor.
  - rewrite (loop_turn _ _ _ _ _ _ _ _ _ _ _ Hlt Hbp Hs). cbn [fst].
    pose proof (backpressure_quiet k env now ch) as [_ [_ Hq]].
    rewrite Hbp in Hq. cbn [fst] in Hq.
    destruct (IH (S now1) ch3 (offset + CHUNK_SIZE)) as [Hall Hsorted].
    assert (Hall' : Forall (Z.lt offset)
              (map snd (progressCalls
                 (fst (loop textBytes k env (S now1) ch3 f hp (offset + CHUNK_SIZE)))))).
    { eapply Forall_impl; [| exact Hall]. simpl; intros; lia. }
    rewrite progressCalls_app, Hq.
    destruct hp; project; cbn [map snd]; [| auto].
    split; constructor; auto. lia.
Qed.

(** What a run of the loop that comes to its end has written and
    reported. *)
Lemma loop_resolved (fuel : nat) (env : Env) (f : File.t) (hp : bool) :
  forall now ch offset tr ch',
    0 <= offset ->
    loop textBytes fuel env now ch f hp offset = (tr, Resolved ch') ->
    payloads tr = slices (chunkCount (File.size f - offset)) f offset /\
    frames tr = map Binary (payloads tr) /\
    progressCalls tr =
      (if hp
       then map (fun o => (percent o (File.size f), o))
                (offsets (chunkCount (File.size f - offset)) offset)
       else []).
Proof.
  pose proof CHUNK_SIZE_pos as Hc.
  induction fuel as [| k IH]; intros now ch offset tr ch' Ho H; [discriminate |].
  destruct (loop_cases k env now ch f hp offset)
    as [[Hge E] | [[_ [tr1 [Hbp E]]] | [[_ [tr1 [now1 [ch1 [Hbp [Hs E]]]]]]
                                       | [Hlt [tr1 [now1 [ch1 [ch3 [Hbp Hs]]]]]]]]].
  - rewrite E in H. injection H as <- <-.
    rewrite chunkCount_nonpos by lia. destruct hp; auto.
  - rewrite E in H. discriminate.
  - rewrite E in H. discriminate.
  - rewrite (loop_turn _ _ _ _ _ _ _ _ _ _ _ Hlt Hbp Hs) in H.
    destruct (loop textBytes k env (S now1) ch3 f hp (offset + CHUNK_SIZE))
      as [tr2 out] eqn:E2.
    cbn [fst snd] in H. injection H as <- ->.
    destruct (IH (S now1) ch3 (offset + CHUNK_SIZE) tr2 ch' ltac:(lia) E2)
      as [Hpay [Hfr Hpr]].
    pose proof (backpressure_quiet k env now ch) as [Hq1 [Hq2 Hq3]].
    rewrite Hbp in Hq1, Hq2, Hq3. cbn [fst] in Hq1, Hq2, Hq3.
    rewrite chunkCount_step by lia.
    replace (File.size f - offset - CHUNK_SIZE)
      with (File.size f - (offset + CHUNK_SIZE)) by lia.
    rewrite payloads_app, frames_app, progressCalls_app, Hq1, Hq2, Hq3.
    cbn [slices offsets map].
    destruct hp; project; rewrite Hpay, Hfr, Hpr, Hpay; auto.
Qed.

(** More fuel does not change a run that has ended. *)
Lemma loop_mono (fuel : nat) (env : Env) (f : File.t) (hp : bool) :
  forall now ch offset tr out fuel',
    loop textBytes fuel env now ch f hp offset = (tr, out) ->
    out <> Pending ->
    (fuel <= fuel')%nat ->
    loop textBytes fuel' env now ch f hp offset = (tr, out).
Proof.
  induction fuel as [| k IH]; intros now ch offset tr out fuel' H Hout Hle.
  - simpl in H. injection H as <- <-. congruence.
  - destruct fuel' as [| k']; [lia |].
    destruct (loop_cases k env now ch f hp offset)
      as [[Hge E] | [[_ [tr1 [Hbp E]]] | [[Hlt [tr1 [now1 [ch1 [Hbp [Hs E]]]]]]
                                         | [Hlt [tr1 [now1 [ch1 [ch3 [Hbp Hs]]]]]]]]].
    + rewrite E in H. rewrite <- H.
      cbn [loop]. destruct (Z.ltb_spec offset (File.size f)); [lia | reflexivity].
    + rewrite E in H. injection H as <- <-. congruence.
    + rewrite E in H. rewrite <- H.
      cbn [loop]. destruct (Z.ltb_spec offset (File.size f)); [| lia].
      rewrite (backpressure_mono _ _ _ _ _ _ k' Hbp) by lia. now rewrite Hs.
    + rewrite (loop_turn _ _ _ _ _ _ _ _ _ _ _ Hlt Hbp Hs) in H.
      destruct (loop textBytes k env (S now1) ch3 f hp (offset + CHUNK_SIZE))
        as [tr2 out2] eqn:E2.
      cbn [fst snd] in H. injection H as <- <-.
      rewrite (loop_turn k' _ _ _ _ _ _ tr1 now1 ch1 ch3 Hlt).
      * rewrite (IH _ _ _ _ _ k' E2 Hout) by lia. reflexivity.
      * apply (backpressure_mono _ _ _ _ _ _ k' Hbp). lia.
      * exact Hs.
Qed.

(** In a live environment, on an open channel, the loop comes to its
    end. *)
Lemma loop_terminates (env : Env) (Hl : live env) (f : File.t) (hp : bool) (n : nat) :
  forall now ch offset,
    chunkCount (File.size f - offset) = n ->
    is_open ch = true ->
    exists fuel tr ch',
      loop textBytes fuel env now ch f hp offset = (tr, Resolved ch').
Proof.
  pose proof CHUNK_SIZE_pos as Hc.
  induction n as [| n IH]; intros now ch offset Hn Hopen.
  - exists 1%nat, [], ch. cbn [loop].
    destruct (Z.ltb_spec offset (File.size f)) as [Hlt | Hge]; [| reflexivity].
    rewrite chunkCount_step in Hn by lia. discriminate.
  - assert (Hlt : offset < File.size f).
    { destruct (Z.lt_ge_cases offset (File.size f)); [assumption |].
      rewrite chunkCount_nonpos in Hn by lia. discriminate. }
    destruct (backpressure_terminates env Hl (S (Z.to_nat (bufferedAmount ch))) now ch
                ltac:(lia)) as [tr1 [[now1 ch1] Hbp]].
    assert (Hopen1 : is_open (elapse (env now1) ch1) = true).
    { unfold is_open in *. rewrite (elapse_live env now1 ch1 Hl).
      now rewrite (backpressure_live _ _ _ _ _ _ _ Hl Hbp). }
    pose proof (send_open (elapse (env now1) ch1)
                  (Binary (File.slice f offset (offset + CHUNK_SIZE))) Hopen1) as Hs.
    set (ch3 := mkChannel _ _) in Hs.
    destruct (IH (S now1) ch3 (offset + CHUNK_SIZE)) as [k2 [tr2 [ch' E2]]].
    { rewrite chunkCount_step in Hn by lia. injection Hn as <-. f_equal. lia. }
    { exact Hopen1. }
    set (k := Nat.max (S (Z.to_nat (bufferedAmount ch))) k2).
    exists (S k). eexists. exists ch'.
    rewrite (loop_turn k _ _ _ _ _ _ tr1 now1 ch1 ch3 Hlt).
    + rewrite (loop_mono _ _ _ _ _ _ _ _ _ k E2) by (unfold k; try discriminate; lia).
      reflexivity.
    + apply (backpressure_mono _ _ _ _ _ _ k Hbp). unfold k; lia.
    + exact Hs.
Qed.

End Loop.

End SenderFacts.

(** ** Facts about the negotiator *)

Module NegotiatorFacts.
Import Negotiator.

Lemma onSignal_no_offer (pc : PeerConnection) (cfg : Config) (data : SignalData) :
  existsb offers (onSignal pc cfg data) = false.
Proof.
  destruct data as [offer | answer | candidate | ty]; simpl.
  - destruct (setRemoteDescription pc offer); [| reflexivity]. simpl.
    destruct (createAnswer pc) as [answer |]; [| reflexivity]. simpl.
    destruct (setLocalDescription pc answer); reflexivity.
  - destruct (setRemoteDescription pc answer); reflexivity.
  - destruct (addIceCandidate pc candidate); reflexivity.
  - reflexivity.
Qed.

(** Only the peer-joined handler of the initiator offers. *)
Lemma handle_offers (pc : PeerConnection) (cfg : Config) (st : State) (i : Input) :
  existsb offers (snd (handle pc cfg st i)) = true ->
  i = SocketPeerJoined /\ isReceiver cfg = false.
Proof.
  destruct i as [data | | [c |] | | |]; simpl.
  - rewrite onSignal_no_offer. discriminate.
  - unfold onPeerJoined. destruct (isReceiver cfg); [discriminate | auto].
  - discriminate.
  - discriminate.
  - discriminate.
  - destruct (onChannelOpen cfg); discriminate.
  - discriminate.
Qed.

Lemma handleAll_cons (pc : PeerConnection) (cfg : Config) (st : State) i more :
  snd (handleAll pc cfg st (i :: more)) =
  snd (handle pc cfg st i) ++ snd (handleAll pc cfg (fst (handle pc cfg st i)) more).
Proof.
  simpl. destruct (handle pc cfg st i) as [st1 a1]. simpl.
  destruct (handleAll pc cfg st1 more) as [st2 a2]. reflexivity.
Qed.

Lemma handleAll_offers (pc : PeerConnection) (cfg : Config) (inputs : list Input) :
  forall st,
    existsb offers (snd (handleAll pc cfg st inputs)) = true ->
    existsb is_peer_joined inputs = true /\ isReceiver cfg = false.
Proof.
  induction inputs as [| i more IH]; intros st H; [discriminate |].
  rewrite handleAll_cons, existsb_app in H.
  apply orb_true_iff in H. destruct H as [H | H].
  - apply handle_offers in H. destruct H as [-> Hr]. auto.
  - apply IH in H. destruct H as [Hj Hr]. split; [| exact Hr].
    simpl. rewrite Hj. apply orb_true_r.
Qed.

Lemma create_no_offer (cfg : Config) :
  existsb offers (snd (createWebRTCConnection cfg)) = false.
Proof. unfold createWebRTCConnection. destruct (isReceiver cfg); reflexivity. Qed.

End NegotiatorFacts.

(** ** A whole transfer: the sender's frames handed to the receiver *)

Module TransferFacts.
Import Sender SenderFacts Receiver ReceiverFacts.

(** *** The chunks of a file *)

Lemma chunkCount_ceil (s : Z) :
  0 <= s ->
  Z.of_nat (chunkCount s) =
  s / CHUNK_SIZE + (if s mod CHUNK_SIZE =? 0 then 0 else 1).
Proof.
  intros Hs. pose proof CHUNK_SIZE_pos as Hc.
  pose proof (Z.div_mod s CHUNK_SIZE ltac:(lia)) as Hdm.
  pose proof (Z.mod_pos_bound s CHUNK_SIZE Hc) as Hm.
  destruct (Z.eq_dec s 0) as [-> | Hne].
  - rewrite chunkCount_nonpos by lia. reflexivity.
  - pose proof (chunkCount_bounds s ltac:(lia)) as Hb.
    destruct (Z.eqb_spec (s mod CHUNK_SIZE) 0); nia.
Qed.

Lemma slices_whole (f : File.t) :
  concat (slices (chunkCount (File.size f)) f 0) = File.bytes f.
Proof.
  pose proof (slices_concat (chunkCount (File.size f)) f 0 ltac:(lia)) as H.
  rewrite rest_past_end in H.
  - rewrite app_nil_r in H. exact H.
  - assert (0 <= File.size f) by (unfold File.size; lia).
    destruct (Z.eq_dec (File.size f) 0) as [E | E].
    + rewrite E. rewrite chunkCount_nonpos by lia. simpl. lia.
    + pose proof (chunkCount_bounds (File.size f) ltac:(lia)). lia.
Qed.

(** Every chunk but the last is full; none is empty. *)
Lemma slices_sizes (f : File.t) (i : nat) :
  (i < chunkCount (File.size f))%nat ->
  byteLength (nth i (slices (chunkCount (File.size f)) f 0) []) =
  if (S i =? chunkCount (File.size f))%nat
  then File.size f - CHUNK_SIZE * Z.of_nat i
  else CHUNK_SIZE.
Proof.
  intros Hi. pose proof CHUNK_SIZE_pos as Hc.
  rewrite slices_nth by exact Hi.
  rewrite slice_byteLength by nia.
  assert (Hpos : 0 < File.size f).
  { destruct (Z.lt_ge_cases 0 (File.size f)); [assumption |].
    rewrite chunkCount_nonpos in Hi by lia. lia. }
  pose proof (chunkCount_bounds (File.size f) Hpos) as Hb.
  destruct (Nat.eqb_spec (S i) (chunkCount (File.size f))) as [E | E].
  - rewrite <- E in Hb. nia.
  - nia.
Qed.

Lemma slices_nonempty (f : File.t) :
  Forall (fun d => 0 < byteLength d) (slices (chunkCount (File.size f)) f 0).
Proof.
  pose proof CHUNK_SIZE_pos as Hc.
  apply Forall_forall. intros d Hin.
  destruct (In_nth _ _ [] Hin) as [i [Hi <-]].
  rewrite slices_length in Hi.
  rewrite slices_sizes by exact Hi.
  assert (Hpos : 0 < File.size f).
  { destruct (Z.lt_ge_cases 0 (File.size f)); [assumption |].
    rewrite chunkCount_nonpos in Hi by lia. lia. }
  pose proof (chunkCount_bounds (File.size f) Hpos) as Hb.
  destruct (Nat.eqb_spec (S i) (chunkCount (File.size f))) as [E | E]; [| lia].
  rewrite <- E in Hb. nia.
Qed.

Lemma last_nth_pred {A : Type} (l : list A) (d : A) :
  last l d = nth (pred (length l)) l d.
Proof.
  induction l as [| a l IH]; [reflexivity |].
  destruct l as [| b l]; [reflexivity |].
  change (last (a :: b :: l) d) with (last (b :: l) d). rewrite IH. reflexivity.
Qed.

Lemma offsets_last (n : nat) : forall o d,
  last (offsets (S n) o) d = o + CHUNK_SIZE * Z.of_nat (S n).
Proof.
  induction n as [| n IH]; intros o d.
  - cbn [offsets last]. lia.
  - change (offsets (S (S n)) o)
      with ((o + CHUNK_SIZE) :: offsets (S n) (o + CHUNK_SIZE)).
    change (last (?x :: offsets (S n) ?o') d) with (last (offsets (S n) o') d).
    rewrite IH. lia.
Qed.

(** *** The sender as a whole *)

Section Run.
Variable textBytes : Meta.t -> N.

Lemma sendFileOverRTC_open fuel env f ch hp :
  is_open ch = true ->
  sendFileOverRTC textBytes fuel env f (Some ch) hp =
  (Write (bufferedAmount ch) (Text (metadata f))
     :: fst (loop textBytes fuel env 0 (queued textBytes ch f) f hp 0),
   snd (loop textBytes fuel env 0 (queued textBytes ch f) f hp 0)).
Proof.
  intros Hopen. unfold sendFileOverRTC, send. rewrite Hopen. simpl.
  fold (queued textBytes ch f).
  destruct (loop textBytes fuel env 0 (queued textBytes ch f) f hp 0). reflexivity.
Qed.

Lemma sendFileOverRTC_not_open fuel env f ch hp :
  is_open ch = false ->
  sendFileOverRTC textBytes fuel env f (Some ch) hp = ([], Rejected NotOpen (Some ch)).
Proof. intros Hopen. unfold sendFileOverRTC. now rewrite Hopen. Qed.

(** A run that resolves has written the metadata, then the chunks. *)
Lemma sendFileOverRTC_resolved fuel env f dc hp tr ch' :
  sendFileOverRTC textBytes fuel env f dc hp = (tr, Resolved ch') ->
  frames tr = Text (metadata f) :: map Binary (slices (chunkCount (File.size f)) f 0) /\
  progressCalls tr =
    (if hp
     then map (fun o => (percent o (File.size f), o))
              (offsets (chunkCount (File.size f)) 0)
     else []).
Proof.
  destruct dc as [ch |]; [| discriminate].
  destruct (is_open ch) eqn:Hopen.
  - rewrite sendFileOverRTC_open by exact Hopen.
    destruct (loop textBytes fuel env 0 (queued textBytes ch f) f hp 0) as [tr0 out] eqn:E.
    simpl. intros H. injection H as <- ->.
    destruct (loop_resolved textBytes fuel env f hp 0%nat (queued textBytes ch f) 0 tr0 ch'
                (Z.le_refl 0) E) as [Hp [Hf Hc]].
    rewrite Z.sub_0_r in Hp, Hc.
    change (frames (?e :: ?l)) with (frames [e] ++ frames l).
    change (progressCalls (?e :: ?l)) with (progressCalls [e] ++ progressCalls l).
    rewrite Hf, Hp, Hc. auto.
  - rewrite sendFileOverRTC_not_open by exact Hopen. discriminate.
Qed.

(** With enough fuel, a run in a live environment on an open channel
    resolves. *)
Lemma sendFileOverRTC_terminates env f ch hp :
  live env -> is_open ch = true ->
  exists fuel0, forall fuel, (fuel0 <= fuel)%nat ->
    exists ch', snd (sendFileOverRTC textBytes fuel env f (Some ch) hp) = Resolved ch'.
Proof.
  intros Hl Hopen.
  destruct (loop_terminates textBytes env Hl f hp _ 0%nat (queued textBytes ch f) 0 eq_refl Hopen)
    as [fuel0 [tr [ch' E]]].
  exists fuel0. intros fuel Hle. exists ch'.
  rewrite sendFileOverRTC_open by exact Hopen. simpl.
  rewrite (loop_mono textBytes _ _ _ _ _ _ _ _ _ fuel E) by (try discriminate; lia).
  reflexivity.
Qed.

End Run.

(** *** The receiver fed with the chunks of one file *)

Lemma deliver_chunks onProgress (datas : list (list byte)) : forall st m,
  meta st = Some m ->
  datas <> [] ->
  Forall (fun d => 0 < byteLength d) datas ->
  receivedBytes st + total datas = Meta.size m ->
  completions (snd (deliver onProgress st (map Binary datas))) =
    [(m, Blob.of_parts (chunks st ++ datas) (Meta.type m))] /\
  receivedBytes (fst (deliver onProgress st (map Binary datas))) = Meta.size m /\
  chunks (fst (deliver onProgress st (map Binary datas))) = chunks st ++ datas.
Proof.
  induction datas as [| d ds IH]; intros st m Hm Hne Hpos Hsum; [congruence |].
  change (map Binary (d :: ds)) with (Binary d :: map Binary ds).
  rewrite deliver_cons. cbn [fst snd]. rewrite completions_app.
  inversion Hpos as [| ? ? Hd Hds]; subst.
  rewrite total_cons in Hsum.
  destruct ds as [| d' ds'].
  - simpl in *. rewrite Hm.
    replace (receivedBytes st + byteLength d =? Meta.size m) with true
      by (symmetry; apply Z.eqb_eq; lia).
    destruct onProgress; simpl; repeat split; auto; lia.
  - destruct (IH (fst (onmessage onProgress st (Binary d))) m) as [Hc [Hr Hk]].
    { exact Hm. }
    { discriminate. }
    { exact Hds. }
    { cbn [onmessage fst receivedBytes]. lia. }
    cbn [onmessage fst chunks] in Hc, Hr, Hk.
    assert (Hlt : (receivedBytes st + byteLength d =? Meta.size m) = false).
    { apply Z.eqb_neq. inversion Hds; subst.
      rewrite total_cons in Hsum.
      pose proof (total_nonneg ds'). lia. }
    cbn [onmessage fst snd]. rewrite Hm in Hc, Hr, Hk |- *.
    rewrite Hlt, Hc, Hr, Hk, app_nil_r.
    rewrite <- !app_assoc. cbn [app].
    destruct onProgress; simpl; auto.
Qed.

End TransferFacts.

(** * Properties of the design *)

Import Sender SenderFacts Receiver ReceiverFacts TransferFacts.

Lemma is_open_iff (ch : Channel) : is_open ch = true <-> readyState ch = Open.
Proof. unfold is_open. destruct (readyState ch); split; congruence. Qed.

(** The only rejection the loop itself produces is that of [dc.send]. *)
Lemma loop_never_NotOpen textBytes fuel env f hp : forall now ch offset dc',
  snd (loop textBytes fuel env now ch f hp offset) <> Rejected NotOpen dc'.
Proof.
  induction fuel as [| k IH]; intros now ch offset dc'; [discriminate |].
  destruct (loop_cases textBytes k env now ch f hp offset)
    as [[_ E] | [[_ [tr1 [Hbp E]]] | [[_ [tr1 [now1 [ch1 [Hbp [Hs E]]]]]]
                                     | [Hlt [tr1 [now1 [ch1 [ch3 [Hbp Hs]]]]]]]]].
  - rewrite E. discriminate.
  - rewrite E. discriminate.
  - rewrite E. discriminate.
  - rewrite (loop_turn textBytes _ _ _ _ _ _ _ _ _ _ _ Hlt Hbp Hs). apply IH.
Qed.

Lemma StronglySorted_lt_le (l : list Z) :
  StronglySorted Z.lt l -> StronglySorted Z.le l.
Proof.
  induction 1 as [| x l Hs IH Hall]; constructor; [exact IH |].
  eapply Forall_impl; [| exact Hall]. simpl; intros; lia.
Qed.

(** C1 — Round-trip completion correctness, at the empty file, where the
    program departs from it.  When all frames of a resolved run for a file
    without content have been delivered in order, [receivedBytes] equals
    the declared size and the fragments are the file's bytes, yet no
    callback at all has been called: the completion callback is not
    invoked.  (For every other file it is: [roundtrip_nonempty] below.) *)
Theorem empty_file_never_completes :
  forall textBytes fuel env name ty buffered setProgress onProgress,
    let file := File.mk name [] ty in
    let run := sendFileOverRTC textBytes (S fuel) env file
                 (Some (mkChannel Open buffered)) setProgress in
    let received := deliver onProgress init (frames (fst run)) in
    resolved (snd run) = true /\
    meta (fst received) = Some (metadata file) /\
    receivedBytes (fst received) = File.size file /\
    concat (chunks (fst received)) = File.bytes file /\
    snd received = [].
Proof.
  intros textBytes fuel env name ty buffered setProgress onProgress file run received.
  repeat split.
Qed.

(** Round trip of a file that is not empty: a run on an open channel in a
    live environment resolves, and its frames, delivered in order to a
    fresh receiver, make it call the completion callback exactly once, with
    the metadata and a blob holding the file's bytes. *)
Theorem roundtrip_nonempty :
  forall textBytes env file ch setProgress onProgress,
    live env ->
    readyState ch = Open ->
    0 < File.size file ->
    exists fuel0, forall fuel, (fuel0 <= fuel)%nat ->
      let run := sendFileOverRTC textBytes fuel env file (Some ch) setProgress in
      let received := deliver onProgress init (frames (fst run)) in
      resolved (snd run) = true /\
      completions (snd received) =
        [(metadata file, Blob.mk (File.bytes file) (File.type file))] /\
      receivedBytes (fst received) = File.size file /\
      Blob.size (Blob.mk (File.bytes file) (File.type file)) = File.size file.
Proof.
  intros textBytes env file ch setProgress onProgress Hlive Hready Hpos.
  apply is_open_iff in Hready.
  destruct (sendFileOverRTC_terminates textBytes env file ch setProgress Hlive Hready)
    as [fuel0 Hres].
  exists fuel0. intros fuel Hfuel. cbv zeta.
  destruct (Hres fuel Hfuel) as [ch' Hout].
  destruct (sendFileOverRTC textBytes fuel env file (Some ch) setProgress)
    as [tr out] eqn:Erun.
  cbn [fst snd] in Hout |- *. subst out.
  destruct (sendFileOverRTC_resolved textBytes _ _ _ _ _ _ _ Erun) as [Hframes _].
  rewrite Hframes, deliver_cons. cbn [onmessage fst snd app].
  pose proof (chunkCount_bounds (File.size file) Hpos) as Hb.
  pose proof CHUNK_SIZE_pos as Hc.
  destruct (deliver_chunks onProgress (slices (chunkCount (File.size file)) file 0)
              (mkState (Some (metadata file)) (receivedBytes init) (chunks init))
              (metadata file)) as [Hcompl [Hrecv Hchunks]].
  - reflexivity.
  - intros Hnil. apply (f_equal (@length _)) in Hnil.
    rewrite slices_length in Hnil. simpl in Hnil. nia.
  - apply slices_nonempty.
  - rewrite total_concat, slices_whole. reflexivity.
  - rewrite Hcompl, Hrecv. cbn [chunks init app].
    unfold Blob.of_parts. rewrite slices_whole.
    repeat split.
Qed.

Lemma roundtrip_nonempty_witness :
  live Samples.steady /\
  readyState Samples.fresh = Open /\
  0 < File.size Samples.tiny /\
  exists fuel0, forall fuel, (fuel0 <= fuel)%nat ->
    completions
      (snd (deliver true init
              (frames (fst (sendFileOverRTC Samples.eighty fuel Samples.steady
                              Samples.tiny (Some Samples.fresh) false))))) =
    [(metadata Samples.tiny,
      Blob.mk [x01; x02; x03] "application/octet-stream")].
Proof.
  assert (Hl : live Samples.steady) by (intros t; split; [reflexivity | simpl; lia]).
  assert (Hs : 0 < File.size Samples.tiny) by (vm_compute; reflexivity).
  split; [exact Hl |]. split; [reflexivity |]. split; [exact Hs |].
  destruct (roundtrip_nonempty Samples.eighty Samples.steady Samples.tiny Samples.fresh
              false true Hl eq_refl Hs) as [fuel0 H].
  exists fuel0. intros fuel Hfuel.
  destruct (H fuel Hfuel) as [_ [Hc _]]. exact Hc.
Defined.

(** C2 — Metadata-first counting, as stated, fails: a byte that arrives
    before the metadata is counted.  With one byte before a metadata frame that declares two bytes
    and one byte after it, the handler completes with both bytes; without
    the early byte it does not complete. *)
Lemma early_bytes_are_counted :
  let m := Meta.mk "f.bin" 2 "application/octet-stream" in
  completions (snd (deliver false init [Binary [x01]; Text m; Binary [x02]])) =
    [(m, Blob.mk [x01; x02] "application/octet-stream")] /\
  completions (snd (deliver false init [Text m; Binary [x02]])) = [] /\
  ~ (forall onProgress early m' late,
       length (completions
         (snd (deliver onProgress init (map Binary early ++ Text m' :: late)))) =
       length (completions (snd (deliver onProgress init (Text m' :: late))))).
Proof.
  cbv zeta. split; [reflexivity |]. split; [reflexivity |].
  intros H.
  specialize (H false [[x01]] (Meta.mk "f.bin" 2 "application/octet-stream")
                [Binary [x02]]).
  vm_compute in H. discriminate.
Qed.

(** C2 — Metadata-first counting, amended.  Binary frames that arrive
    before any metadata frame cause no call at all, neither progress nor
    completion; their bytes are nevertheless appended to [chunks] and added
    to [receivedBytes], and so they count once the metadata is there: a
    metadata frame declaring the early bytes plus one more buffer is
    completed by that buffer, with the early bytes in the content. *)
Theorem early_bytes_only_accumulate :
  forall onProgress (early : list (list byte)),
    deliver onProgress init (map Binary early) =
      (mkState None (total early) early, []) /\
    (forall name ty (data : list byte),
       let m := Meta.mk name (total early + byteLength data) ty in
       completions
         (snd (deliver onProgress init (map Binary early ++ [Text m; Binary data]))) =
       [(m, Blob.of_parts (early ++ [data]) ty)]).
Proof.
  intros onProgress early.
  pose proof (deliver_before_metadata onProgress early 0 []) as H.
  rewrite Z.add_0_l in H. cbn [app] in H. fold init in H.
  split; [exact H |].
  intros name ty data m. rewrite deliver_app, H. cbn [fst snd app].
  simpl. rewrite Z.eqb_refl.
  destruct onProgress; reflexivity.
Qed.

(** C3 — Chunk partition and frame order.  For a file of size [S > 0],
    with the chunk size [C = 65536]: a run of [sendFileOverRTC] on an open
    channel in a live environment resolves once it has fuel enough, and the
    frames it has written are one text frame with the metadata, first, and
    then [ceil (S / C)] binary frames that are the consecutive slices of the
    file: each of length [C] except the last, whose length is
    [S - C * floor (S / C)] if that is not zero and [C] otherwise. *)
Theorem chunk_partition :
  forall textBytes env file ch setProgress,
    live env ->
    readyState ch = Open ->
    0 < File.size file ->
    exists fuel0, forall fuel, (fuel0 <= fuel)%nat ->
      let run := sendFileOverRTC textBytes fuel env file (Some ch) setProgress in
      let size := File.size file in
      let chunk := CHUNK_SIZE in
      exists ch' parts,
        snd run = Resolved ch' /\
        frames (fst run) = Text (metadata file) :: map Binary parts /\
        chunk = 65536 /\
        Z.of_nat (length parts) = size / chunk + (if size mod chunk =? 0 then 0 else 1) /\
        concat parts = File.bytes file /\
        (forall i, (i < length parts)%nat ->
           nth i parts [] =
           File.slice file (Z.of_nat i * chunk) (Z.of_nat i * chunk + chunk)) /\
        (forall i, (i + 1 < length parts)%nat -> byteLength (nth i parts []) = chunk) /\
        byteLength (last parts []) =
          (if size - chunk * (size / chunk) =? 0
           then chunk
           else size - chunk * (size / chunk)).
Proof.
  intros textBytes env file ch setProgress Hlive Hready Hpos.
  apply is_open_iff in Hready.
  destruct (sendFileOverRTC_terminates textBytes env file ch setProgress Hlive Hready)
    as [fuel0 Hres].
  exists fuel0. intros fuel Hfuel. cbv zeta.
  destruct (Hres fuel Hfuel) as [ch' Hout].
  destruct (sendFileOverRTC textBytes fuel env file (Some ch) setProgress)
    as [tr out] eqn:Erun.
  cbn [fst snd] in Hout |- *. subst out.
  destruct (sendFileOverRTC_resolved textBytes _ _ _ _ _ _ _ Erun) as [Hframes _].
  pose proof CHUNK_SIZE_pos as Hc.
  pose proof (chunkCount_bounds (File.size file) Hpos) as Hb.
  pose proof (chunkCount_ceil (File.size file) ltac:(lia)) as Hceil.
  pose proof (Z.div_mod (File.size file) CHUNK_SIZE ltac:(lia)) as Hdm.
  pose proof (Z.mod_pos_bound (File.size file) CHUNK_SIZE Hc) as Hm.
  exists ch', (slices (chunkCount (File.size file)) file 0).
  rewrite slices_length.
  repeat split.
  - exact Hframes.
  - exact Hceil.
  - apply slices_whole.
  - intros i Hi. rewrite slices_nth by exact Hi. f_equal; lia.
  - intros i Hi. rewrite slices_sizes by (clear - Hi; lia).
    destruct (Nat.eqb_spec (S i) (chunkCount (File.size file)));
      [clear - Hi e; lia | reflexivity].
  - assert (Hn : (0 < chunkCount (File.size file))%nat) by (clear - Hb Hpos Hc; nia).
    rewrite last_nth_pred, slices_length.
    rewrite slices_sizes by (clear - Hn; lia).
    replace (S (pred (chunkCount (File.size file))) =? chunkCount (File.size file))%nat
      with true by (symmetry; apply Nat.eqb_eq; clear - Hn; lia).
    destruct (Z.eqb_spec (File.size file mod CHUNK_SIZE) 0) as [E | E];
      destruct (Z.eqb_spec (File.size file - CHUNK_SIZE * (File.size file / CHUNK_SIZE)) 0);
      nia.
Qed.

Lemma chunk_partition_witness :
  live Samples.steady /\
  readyState Samples.fresh = Open /\
  0 < File.size Samples.tiny /\
  exists fuel0, forall fuel, (fuel0 <= fuel)%nat ->
    exists parts,
      frames (fst (sendFileOverRTC Samples.eighty fuel Samples.steady Samples.tiny
                     (Some Samples.fresh) true)) =
        Text (metadata Samples.tiny) :: map Binary parts /\
      concat parts = [x01; x02; x03].
Proof.
  assert (Hl : live Samples.steady) by (intros t; split; [reflexivity | simpl; lia]).
  assert (Hs : 0 < File.size Samples.tiny) by (vm_compute; reflexivity).
  split; [exact Hl |]. split; [reflexivity |]. split; [exact Hs |].
  destruct (chunk_partition Samples.eighty Samples.steady Samples.tiny Samples.fresh true
              Hl eq_refl Hs) as [fuel0 H].
  exists fuel0. intros fuel Hfuel.
  destruct (H fuel Hfuel) as [ch' [parts [_ [Hf [_ [_ [Hcat _]]]]]]].
  exists parts. split; [exact Hf | exact Hcat].
Defined.

(** C4 — Zero-byte transfer completion, where the program departs from
    it.  For a file without content the sender writes the metadata frame
    and nothing else, and resolves.  The receiver stores that metadata and
    calls nothing: the completion callback is not invoked on receipt of the
    metadata frame, although the stored size, 0, is what [receivedBytes]
    already is. *)
Theorem zero_byte_transfer :
  forall textBytes fuel env name ty buffered setProgress onProgress,
    let file := File.mk name [] ty in
    let dc := mkChannel Open buffered in
    sendFileOverRTC textBytes (S fuel) env file (Some dc) setProgress =
      ([Write buffered (Text (metadata file))],
       Resolved (mkChannel Open (buffered + Z.of_N (textBytes (metadata file))))) /\
    Meta.size (metadata file) = 0 /\
    onmessage onProgress init (Text (metadata file)) =
      (mkState (Some (metadata file)) 0 [], []).
Proof.
  intros textBytes fuel env name ty buffered setProgress onProgress file dc.
  repeat split.
Qed.

(** C5 — Backpressure bound.  In every run of [sendFileOverRTC], whole or
    cut short, whatever the environment does: every write of a binary frame
    is made with [bufferedAmount] at most [8 * 65536 = 524288]; and past the
    metadata frame the trace has the shape [polling]: a read of
    [bufferedAmount] above the ceiling is followed by a sleep of 20 ms and
    the next read, a read that no longer exceeds the ceiling is followed by
    the write.  In a live environment the waiting ends: the loop is left,
    with the queue at or below the ceiling, after finitely many sleeps. *)
Theorem backpressure_bound :
  forall textBytes fuel env file dc setProgress,
    let tr := fst (sendFileOverRTC textBytes fuel env file dc setProgress) in
    ceiling = 8 * 65536 /\
    POLL_MS = 20 /\
    Forall write_ok tr /\
    (tr = [] \/
     exists b tl, tr = Write b (Text (metadata file)) :: tl /\ polling tl) /\
    (live env ->
     forall now ch, exists k waits now' ch',
       backpressure k env now ch = (waits, Some (now', ch')) /\
       bufferedAmount ch' <= ceiling).
Proof.
  intros textBytes fuel env file dc setProgress tr. subst tr.
  split; [reflexivity |]. split; [reflexivity |].
  apply and_assoc. split.
  2:{ intros Hlive now ch0.
      destruct (backpressure_terminates env Hlive
                  (S (Z.to_nat (bufferedAmount ch0))) now ch0 ltac:(lia))
        as [waits [[now' ch'] Hbp]].
      exists (S (Z.to_nat (bufferedAmount ch0))), waits, now', ch'.
      split; [exact Hbp | apply (backpressure_exit _ _ _ _ _ _ _ Hbp)]. }
  destruct dc as [ch |]; [| simpl; split; [constructor | left; reflexivity]].
  destruct (is_open ch) eqn:Hopen.
  - rewrite sendFileOverRTC_open by exact Hopen. cbn [fst].
    pose proof (loop_polling textBytes fuel env file setProgress 0%nat
                  (queued textBytes ch file) 0) as Hpol.
    split.
    + constructor; [exact I | now apply polling_write_ok].
    + right. eauto.
  - rewrite sendFileOverRTC_not_open by exact Hopen. cbn [fst].
    split; [constructor | left; reflexivity].
Qed.

Lemma backpressure_bound_witness :
  live Samples.steady /\
  exists k waits now' ch',
    backpressure k Samples.steady 0 (mkChannel Open 524290) =
      (waits, Some (now', ch')) /\
    bufferedAmount ch' <= ceiling.
Proof.
  assert (Hl : live Samples.steady) by (intros t; split; [reflexivity | simpl; lia]).
  split; [exact Hl |].
  destruct (backpressure_bound Samples.eighty 5%nat Samples.steady Samples.tiny
              (Some Samples.fresh) true) as [_ [_ [_ [_ Hends]]]].
  exact (Hends Hl 0%nat (mkChannel Open 524290)).
Defined.

(** The bound is inclusive: with exactly 524288 bytes queued the loop is
    left at once, without a sleep; with one byte more it sleeps. *)
Example backpressure_at_ceiling :
  backpressure 2 Samples.stalled 0 (mkChannel Open 524288) =
    ([Poll 524288], Some (0%nat, mkChannel Open 524288)) /\
  backpressure 2 Samples.steady 0 (mkChannel Open 524289) =
    ([Poll 524289; Sleep 20; Poll 524288], Some (1%nat, mkChannel Open 524288)).
Proof. split; reflexivity. Qed.

(** C6 — Channel-not-ready error.  [sendFileOverRTC] raises
    "DataChannel is not open" if and only if the channel is absent or its
    [readyState] is not "open" at the call.  The check is the first thing
    the function does, before any suspension: when the error is raised the
    trace is empty (no metadata frame, no binary frame, no [await]) and the
    channel is as it was.  The function being [async], the caller sees the
    error as the rejection of the promise it gets back. *)
Theorem channel_not_ready_error :
  forall textBytes fuel env file dc setProgress,
    let run := sendFileOverRTC textBytes fuel env file dc setProgress in
    ((exists dc', snd run = Rejected NotOpen dc') <->
     (dc = None \/ exists ch, dc = Some ch /\ readyState ch <> Open)) /\
    (forall dc', snd run = Rejected NotOpen dc' -> fst run = [] /\ dc' = dc).
Proof.
  intros textBytes fuel env file dc setProgress run. subst run.
  destruct dc as [ch |].
  - destruct (is_open ch) eqn:Hopen.
    + rewrite sendFileOverRTC_open by exact Hopen. cbn [fst snd]. split.
      * split.
        -- intros [dc' H]. now apply loop_never_NotOpen in H.
        -- intros [H | [ch0 [H Hne]]]; [discriminate |].
           injection H as <-. apply is_open_iff in Hopen. contradiction.
      * intros dc' H. now apply loop_never_NotOpen in H.
    + rewrite sendFileOverRTC_not_open by exact Hopen. cbn [fst snd]. split.
      * split.
        -- intros _. right. exists ch. split; [reflexivity |].
           intros Hr. apply is_open_iff in Hr. congruence.
        -- intros _. eauto.
      * intros dc' H. injection H as <-. auto.
  - simpl. split.
    + split; [auto | eauto].
    + intros dc' H. injection H as <-. auto.
Qed.

Lemma channel_not_ready_error_witness :
  sendFileOverRTC Samples.eighty 5 Samples.steady Samples.tiny None true =
    ([], Rejected NotOpen None) /\
  sendFileOverRTC Samples.eighty 5 Samples.steady Samples.tiny
    (Some (mkChannel Connecting 0)) true =
    ([], Rejected NotOpen (Some (mkChannel Connecting 0))).
Proof.
  split.
  - destruct (channel_not_ready_error Samples.eighty 5%nat Samples.steady Samples.tiny
                None true) as [[_ Hraise] Hclean].
    destruct (Hraise (or_introl eq_refl)) as [dc' Hout].
    destruct (Hclean dc' Hout) as [Htr Hdc].
    rewrite (surjective_pairing (sendFileOverRTC _ _ _ _ _ _)), Htr, Hout, Hdc.
    reflexivity.
  - set (ch := mkChannel Connecting 0).
    destruct (channel_not_ready_error Samples.eighty 5%nat Samples.steady Samples.tiny
                (Some ch) true) as [[_ Hraise] Hclean].
    assert (Hnot : readyState ch <> Open) by discriminate.
    destruct (Hraise (or_intror (ex_intro _ ch (conj eq_refl Hnot)))) as [dc' Hout].
    destruct (Hclean dc' Hout) as [Htr Hdc].
    rewrite (surjective_pairing (sendFileOverRTC _ _ _ _ _ _)), Htr, Hout, Hdc.
    reflexivity.
Defined.

Lemma last_map {A B : Type} (g : A -> B) (l : list A) (d : A) :
  last (map g l) (g d) = g (last l d).
Proof.
  induction l as [| a l IH]; [reflexivity |].
  destruct l as [| b l]; [reflexivity |].
  change (last (map g (a :: b :: l)) (g d)) with (last (map g (b :: l)) (g d)).
  rewrite IH. reflexivity.
Qed.

Lemma percent_full (s : Z) : s <> 0 -> percent s s = Finite (inject_Z 100).
Proof.
  intros Hs. unfold percent, js_div.
  destruct (Z.eqb_spec s 0) as [E | _]; [contradiction |].
  cbn [js_times100]. f_equal.
  rewrite (Qred_complete (inject_Z s / inject_Z s) 1).
  - reflexivity.
  - apply Qmult_inv_r. unfold Qeq, inject_Z. simpl. lia.
Qed.

(** What the last call of [setProgress] reports in a resolved run: the
    offset after the last turn, [CHUNK_SIZE * ceil (S / CHUNK_SIZE)].  That
    is the size of the file, and 100 percent, exactly when the size is a
    multiple of the chunk size; otherwise it is more. *)
Lemma sender_final_progress :
  forall textBytes fuel env file dc tr ch',
    sendFileOverRTC textBytes fuel env file dc true = (tr, Resolved ch') ->
    0 < File.size file ->
    let reached := CHUNK_SIZE * Z.of_nat (chunkCount (File.size file)) in
    last (progressCalls tr) (percent 0 (File.size file), 0) =
      (percent reached (File.size file), reached) /\
    (File.size file mod CHUNK_SIZE = 0 ->
       reached = File.size file /\
       percent reached (File.size file) = Finite (inject_Z 100)) /\
    (File.size file mod CHUNK_SIZE <> 0 -> File.size file < reached).
Proof.
  intros textBytes fuel env file dc tr ch' Hrun Hpos reached.
  destruct (sendFileOverRTC_resolved textBytes _ _ _ _ _ _ _ Hrun) as [_ Hcalls].
  pose proof CHUNK_SIZE_pos as Hc.
  pose proof (chunkCount_bounds (File.size file) Hpos) as Hb.
  pose proof (chunkCount_ceil (File.size file) ltac:(lia)) as Hceil.
  pose proof (Z.div_mod (File.size file) CHUNK_SIZE ltac:(lia)) as Hdm.
  split; [| split].
  - rewrite Hcalls.
    rewrite (last_map (fun o => (percent o (File.size file), o))).
    destruct (chunkCount (File.size file)) as [| n] eqn:En; [lia |].
    rewrite offsets_last. subst reached. f_equal; f_equal; lia.
  - intros Hmod. rewrite Hmod in Hceil, Hdm. simpl in Hceil.
    assert (Hr : reached = File.size file) by (subst reached; nia).
    split; [exact Hr |]. rewrite Hr. apply percent_full. lia.
  - intros Hmod. subst reached.
    destruct (Z.eqb_spec (File.size file mod CHUNK_SIZE) 0); [contradiction |].
    pose proof (Z.mod_pos_bound (File.size file) CHUNK_SIZE Hc). nia.
Qed.

(** C7 — Sender progress reporting, at the 150000-byte file of the
    design's scenario, where the program departs from it.  The sender
    writes three chunks and calls [setProgress] after each; the calls report
    the offset, advanced by the chunk size, and the last one reports 196608
    bytes and 16384/125 = 131.072 percent, not the 150000 bytes and 100
    percent of the file. *)
Theorem sender_progress_overshoots :
  let run := sendFileOverRTC Samples.eighty 8 Samples.stalled Samples.scenario
               (Some Samples.fresh) true in
  File.size Samples.scenario = 150000 /\
  resolved (snd run) = true /\
  map byteLength (payloads (fst run)) = [65536; 65536; 18928] /\
  progressCalls (fst run) =
    [(Finite (Qmake 16384 375), 65536);
     (Finite (Qmake 32768 375), 131072);
     (Finite (Qmake 16384 125), 196608)].
Proof.
  vm_compute. repeat split.
Qed.

(** C8 — Progress monotonicity.  The byte counts handed to the sender's
    [setProgress] are non-decreasing along every run, and so are the byte
    counts handed to the receiver's [onProgress] along every sequence of
    frames. *)
Theorem progress_monotone :
  (forall textBytes fuel env file dc setProgress,
     StronglySorted Z.le
       (map snd (progressCalls
          (fst (sendFileOverRTC textBytes fuel env file dc setProgress))))) /\
  (forall onProgress frames,
     StronglySorted Z.le (reported (snd (deliver onProgress init frames)))).
Proof.
  split.
  - intros textBytes fuel env file dc setProgress.
    destruct dc as [ch |]; [| constructor].
    destruct (is_open ch) eqn:Hopen.
    + rewrite sendFileOverRTC_open by exact Hopen. cbn [fst].
      change (progressCalls (?e :: ?l)) with (progressCalls [e] ++ progressCalls l).
      cbn [progressCalls flat_map app].
      apply StronglySorted_lt_le.
      apply (loop_progress_increasing textBytes fuel env file setProgress).
    + rewrite sendFileOverRTC_not_open by exact Hopen. constructor.
  - intros onProgress frames. apply (deliver_reported_sorted onProgress frames init).
Qed.

(** C9 — Offer deferral.  The call of [createWebRTCConnection] itself
    (join time) neither generates nor sends an offer, it only joins the
    room; the initiator's peer-joined handler creates the offer, sets it as
    the local description and sends it through the socket; no other handler
    and no handler of the responder generates or sends an offer, so in a
    whole session an offer appears only if the peer is the initiator and a
    peer-joined event has arrived. *)
Theorem offer_deferred :
  forall (pc : Negotiator.PeerConnection) (cfg : Negotiator.Config),
    existsb Negotiator.offers (snd (Negotiator.createWebRTCConnection cfg)) = false /\
    last (snd (Negotiator.createWebRTCConnection cfg)) Negotiator.LogError =
      Negotiator.EmitJoinRoom (Negotiator.code cfg) /\
    (forall st offer,
       Negotiator.isReceiver cfg = false ->
       Negotiator.createOffer pc = Some offer ->
       Negotiator.setLocalDescription pc offer = true ->
       snd (Negotiator.handle pc cfg st Negotiator.SocketPeerJoined) =
       [Negotiator.CreateOffer;
        Negotiator.SetLocalDescription offer;
        Negotiator.EmitSignal (Negotiator.code cfg) (Negotiator.OfferData offer)]) /\
    (forall st i,
       existsb Negotiator.offers (snd (Negotiator.handle pc cfg st i)) = true ->
       i = Negotiator.SocketPeerJoined /\ Negotiator.isReceiver cfg = false) /\
    (forall inputs,
       existsb Negotiator.offers (Negotiator.session pc cfg inputs) = true ->
       existsb Negotiator.is_peer_joined inputs = true /\
       Negotiator.isReceiver cfg = false).
Proof.
  intros pc cfg.
  assert (Hsession : forall inputs,
            existsb Negotiator.offers (Negotiator.session pc cfg inputs) = true ->
            existsb Negotiator.is_peer_joined inputs = true /\
            Negotiator.isReceiver cfg = false).
  { intros inputs H. unfold Negotiator.session in H.
    pose proof (NegotiatorFacts.create_no_offer cfg) as Hc.
    destruct (Negotiator.createWebRTCConnection cfg) as [st0 acts0].
    rewrite existsb_app in H. simpl in Hc. rewrite Hc in H. simpl in H.
    now apply NegotiatorFacts.handleAll_offers in H. }
  split; [apply NegotiatorFacts.create_no_offer |].
  split.
  { unfold Negotiator.createWebRTCConnection.
    destruct (Negotiator.isReceiver cfg); reflexivity. }
  split.
  { intros st offer Hrole Hoffer Hlocal. simpl. unfold Negotiator.onPeerJoined.
    now rewrite Hrole, Hoffer, Hlocal. }
  split; [| exact Hsession].
  intros st i H. now apply NegotiatorFacts.handle_offers in H.
Qed.

Lemma offer_deferred_witness :
  snd (Negotiator.handle
         (Negotiator.mkPC (Some "offer-sdp"%string) (Some "answer-sdp"%string)
            (fun _ => true) (fun _ => true) (fun _ => true))
         (Negotiator.mkConfig "123456"%string false true)
         (Negotiator.mkState true)
         Negotiator.SocketPeerJoined) =
  [Negotiator.CreateOffer;
   Negotiator.SetLocalDescription "offer-sdp"%string;
   Negotiator.EmitSignal "123456"%string (Negotiator.OfferData "offer-sdp"%string)].
Proof.
  destruct (offer_deferred
              (Negotiator.mkPC (Some "offer-sdp"%string) (Some "answer-sdp"%string)
                 (fun _ => true) (fun _ => true) (fun _ => true))
              (Negotiator.mkConfig "123456"%string false true))
    as [_ [_ [Hjoined _]]].
  exact (Hjoined (Negotiator.mkState true) "offer-sdp"%string eq_refl eq_refl eq_refl).
Defined.

(** C10 — Completion requires exact equality.  The handler calls the
    completion callback only on a binary frame after which [receivedBytes]
    is exactly the [size] of the stored metadata; [receivedBytes] never
    goes down over any sequence of frames; and once it is past the declared
    size, no later frame completes the transfer for that metadata (later
    frames being binary, or text frames that declare the same size). *)
Theorem completion_needs_exact_size :
  (forall onProgress st fr m blob,
     In (OnFileReceived m blob) (snd (onmessage onProgress st fr)) ->
     exists data,
       fr = Binary data /\
       meta st = Some m /\
       receivedBytes (fst (onmessage onProgress st fr)) = Meta.size m /\
       blob = Blob.of_parts (chunks st ++ [data]) (Meta.type m)) /\
  (forall onProgress st frames,
     receivedBytes st <= receivedBytes (fst (deliver onProgress st frames))) /\
  (forall onProgress st m frames,
     meta st = Some m ->
     Meta.size m < receivedBytes st ->
     (forall m', In (Text m') frames -> Meta.size m' = Meta.size m) ->
     completions (snd (deliver onProgress st frames)) = []).
Proof.
  split; [| split].
  - intros onProgress st fr m blob H.
    destruct (onmessage_completion onProgress st fr m blob H)
      as [data [-> [Hm [Hsize Hblob]]]].
    exists data. simpl. auto.
  - intros onProgress st frames. apply deliver_received_le.
  - intros onProgress st m frames. apply deliver_overshoot.
Qed.

Lemma completion_needs_exact_size_witness :
  let m := Meta.mk "f.bin" 2 "application/octet-stream" in
  let st := mkState (Some m) 3 [[x01; x02; x03]] in
  meta st = Some m /\
  Meta.size m < receivedBytes st /\
  completions (snd (deliver true st [Binary [x04]; Text m; Binary []])) = [].
Proof.
  cbv zeta.
  split; [reflexivity |]. split; [reflexivity |].
  destruct completion_needs_exact_size as [_ [_ Hpast]].
  apply (Hpast true _ (Meta.mk "f.bin" 2 "application/octet-stream")).
  - reflexivity.
  - reflexivity.
  - intros m' [H | [H | [H | []]]]; try discriminate. now injection H as <-.
Defined.

(** The scenario of the design on the receiving side: the three frames of
    the 150000-byte file give three progress calls, 100 percent only with
    the third, and then one completion, with 150000 bytes of content. *)
Example scenario_received :
  let run := sendFileOverRTC Samples.eighty 8 Samples.stalled Samples.scenario
               (Some Samples.fresh) false in
  let calls := snd (deliver true init (frames (fst run))) in
  flat_map (fun c => match c with
                     | OnProgress p received _ => [(p, received)]
                     | OnFileReceived _ _ => []
                     end) calls =
    [(Finite (Qmake 16384 375), 65536);
     (Finite (Qmake 32768 375), 131072);
     (Finite (inject_Z 100), 150000)] /\
  map (fun mb => (fst mb, Blob.size (snd mb))) (completions calls) =
    [(metadata Samples.scenario, 150000)] /\
  map (fun c => match c with OnFileReceived _ _ => true | _ => false end) calls =
    [false; false; false; true].
Proof. vm_compute. repeat split. Qed.

(** * Further properties *)

(** ** The relay *)

Module RelayFacts.
Import Relay.

Lemma member_In (st : State) (room : Room) (sid : SocketId) :
  member st room sid = true <-> In (room, sid) st.
Proof.
  unfold member. rewrite existsb_exists. split.
  - intros [[r s] [Hin H]]. simpl in H. apply andb_true_iff in H.
    destruct H as [Hr Hs]. apply String.eqb_eq in Hr, Hs. now subst.
  - intros Hin. exists (room, sid). split; [exact Hin |].
    simpl. now rewrite !String.eqb_refl.
Qed.

Lemma members_In (st : State) (room : Room) (sid : SocketId) :
  In sid (members st room) <-> In (room, sid) st.
Proof.
  unfold members. rewrite in_map_iff. split.
  - intros [[r s] [Hs Hin]]. simpl in Hs. subst s.
    apply filter_In in Hin. destruct Hin as [Hin Hr]. simpl in Hr.
    apply String.eqb_eq in Hr. now subst.
  - intros Hin. exists (room, sid). split; [reflexivity |].
    apply filter_In. split; [exact Hin |]. simpl. apply String.eqb_refl.
Qed.

Lemma others_In (st : State) (sid : SocketId) (room : Room) (t : SocketId) :
  In t (others st sid room) <-> t <> sid /\ member st room t = true.
Proof.
  unfold others. rewrite filter_In, members_In, member_In, negb_true_iff.
  rewrite String.eqb_neq. tauto.
Qed.

Lemma members_NoDup (st : State) (room : Room) :
  NoDup st -> NoDup (members st room).
Proof.
  induction st as [| [r s] st IH]; intros Hnd; [constructor |].
  inversion Hnd as [| ? ? Hnotin Hnd']; subst.
  unfold members. simpl.
  destruct (String.eqb_spec r room) as [-> | Hne]; [| now apply IH].
  simpl. constructor; [| now apply IH].
  intros Hin. apply members_In in Hin. contradiction.
Qed.

Lemma others_NoDup (st : State) (sid : SocketId) (room : Room) :
  NoDup st -> NoDup (others st sid room).
Proof. intros H. apply NoDup_filter. now apply members_NoDup. Qed.

Lemma join_NoDup (st : State) (sid : SocketId) (room : Room) :
  NoDup st -> NoDup (join st sid room).
Proof.
  intros Hnd. unfold join.
  destruct (member st room sid) eqn:Hm; [exact Hnd |].
  apply NoDup_app; [exact Hnd | repeat constructor; intros [] |].
  intros p Hin [<- | []].
  apply member_In in Hin. congruence.
Qed.

Lemma join_In (st : State) (sid : SocketId) (room : Room) (p : Room * SocketId) :
  In p (join st sid room) <-> In p st \/ p = (room, sid).
Proof.
  unfold join. destruct (member st room sid) eqn:Hm.
  - apply member_In in Hm. split; [auto |]. intros [H | ->]; assumption.
  - rewrite in_app_iff. simpl. split.
    + intros [H | [H | []]]; auto.
    + intros [H | H]; auto.
Qed.

(** The socket that joins is not among those it is announced to, and
    joining changes nothing else about them. *)
Lemma others_join (st : State) (sid : SocketId) (room : Room) :
  others (join st sid room) sid room = others st sid room.
Proof.
  unfold join. destruct (member st room sid); [reflexivity |].
  unfold others, members. rewrite filter_app, map_app, filter_app.
  simpl. rewrite String.eqb_refl. simpl. rewrite String.eqb_refl. simpl.
  apply app_nil_r.
Qed.

Lemma handle_NoDup (st : State) (sid : SocketId) (e : ClientEvent) :
  NoDup st -> NoDup (fst (handle st sid e)).
Proof.
  intros Hnd. destruct e as [| code | code data |]; simpl.
  - now apply join_NoDup.
  - now apply join_NoDup.
  - exact Hnd.
  - now apply NoDup_filter.
Qed.

Lemma run_cons (st : State) (sid : SocketId) (e : ClientEvent) more :
  run st ((sid, e) :: more) =
  (fst (run (fst (handle st sid e)) more),
   snd (handle st sid e) ++ snd (run (fst (handle st sid e)) more)).
Proof.
  simpl. destruct (handle st sid e) as [st1 out1]. simpl.
  destruct (run st1 more) as [st2 out2]. reflexivity.
Qed.

Lemma run_NoDup (events : list (SocketId * ClientEvent)) : forall st,
  NoDup st -> NoDup (fst (run st events)).
Proof.
  induction events as [| [sid e] more IH]; intros st Hnd; [exact Hnd |].
  rewrite run_cons. simpl. apply IH. now apply handle_NoDup.
Qed.

(** What the server emits goes to sockets that are in some room. *)
Lemma handle_recipient (st : State) (sid : SocketId) (e : ClientEvent) d :
  In d (snd (handle st sid e)) ->
  fst d <> sid /\ exists room, member st room (fst d) = true.
Proof.
  destruct e as [| code | code data |]; simpl; try (intros []).
  - rewrite others_join, in_map_iff. intros [t [<- Hin]].
    apply others_In in Hin. simpl. split; [tauto | exists code; tauto].
  - rewrite in_map_iff. intros [t [<- Hin]].
    apply others_In in Hin. simpl. split; [tauto | exists code; tauto].
Qed.

(** Only its own events put a socket into a room. *)
Lemma handle_member_other (st : State) (sid : SocketId) (e : ClientEvent)
    (room : Room) (t : SocketId) :
  (t <> sid \/ enters e = false) ->
  member (fst (handle st sid e)) room t = true ->
  member st room t = true.
Proof.
  intros Hside. rewrite !member_In.
  destruct e as [| code | code data |]; simpl.
  - rewrite join_In. intros [H | H]; [exact H |].
    injection H as _ ->. destruct Hside as [H | H]; [contradiction | discriminate].
  - rewrite join_In. intros [H | H]; [exact H |].
    injection H as _ ->. destruct Hside as [H | H]; [contradiction | discriminate].
  - auto.
  - intros H. apply filter_In in H. tauto.
Qed.

Lemma disconnect_member (st : State) (sid : SocketId) (room : Room) :
  member (fst (handle st sid Disconnect)) room sid = false.
Proof.
  simpl. destruct (member _ room sid) eqn:Hm; [| reflexivity].
  apply member_In, filter_In in Hm. destruct Hm as [_ Hm].
  simpl in Hm. now rewrite String.eqb_refl in Hm.
Qed.

(** A socket that is in no room and enters none gets nothing. *)
Lemma run_silent (events : list (SocketId * ClientEvent)) (t : SocketId) :
  forall st,
    (forall room, member st room t = false) ->
    (forall e, In (t, e) events -> enters e = false) ->
    forall d, In d (snd (run st events)) -> fst d <> t.
Proof.
  induction events as [| [sid e] more IH]; intros st Hout Hquiet d Hin;
    [destruct Hin |].
  rewrite run_cons in Hin. simpl in Hin. apply in_app_or in Hin.
  destruct Hin as [Hin | Hin].
  - apply handle_recipient in Hin. destruct Hin as [_ [room Hm]].
    intros Heq. rewrite Heq, Hout in Hm. discriminate.
  - apply (IH (fst (handle st sid e))); [| | exact Hin].
    + intros room. destruct (member (fst (handle st sid e)) room t) eqn:Hm;
        [| reflexivity].
      apply handle_member_other in Hm; [now rewrite Hout in Hm |].
      destruct (String.eqb_spec t sid) as [-> | Hne]; [| now left].
      right. apply Hquiet. now left.
    + intros e' Hin'. apply Hquiet. now right.
Qed.

Lemma NoDup_tagged {A B : Type} (m : B) (l : list A) :
  NoDup l -> NoDup (map (fun s => (s, m)) l).
Proof.
  induction 1 as [| x l Hnotin Hnd IH]; simpl; constructor; [| exact IH].
  rewrite in_map_iff. intros [y [H Hin]]. injection H as ->. contradiction.
Qed.

Lemma tagged_In {A B : Type} (m : B) (l : list A) (t : A) (m' : B) :
  In (t, m') (map (fun s => (s, m)) l) <-> m' = m /\ In t l.
Proof.
  rewrite in_map_iff. split.
  - intros [s [H Hin]]. injection H as <- <-. auto.
  - intros [-> Hin]. exists t. auto.
Qed.

End RelayFacts.

Module NetFacts.
Import Net.

Lemma settle_quiet (fuel : nat) (peers : list Peer) (w : World) :
  queue w = [] -> settle fuel peers w = w.
Proof.
  intros Hq. destruct fuel as [| k]; [reflexivity |].
  simpl. unfold step. now rewrite Hq.
Qed.

Lemma settle_step (fuel : nat) (peers : list Peer) (w w' : World) :
  step peers w = Some w' -> settle (S fuel) peers w = settle fuel peers w'.
Proof. intros H. simpl. now rewrite H. Qed.

End NetFacts.

(** Run the exchange: take server steps while the queue is written out,
    settling the comparisons of socket ids and room codes with the
    equations at hand. *)
Ltac net_crunch :=
  repeat (progress (unfold Relay.join, Relay.member, Relay.others, Relay.members,
                           Net.react, Net.lookup;
            cbn -[String.eqb Net.settle];
            rewrite ?String.eqb_refl;
            repeat match goal with
                   | H : String.eqb _ _ = _ |- _ => rewrite H
                   | H : Negotiator.createOffer _ = _ |- _ => rewrite H
                   | H : Negotiator.createAnswer _ = _ |- _ => rewrite H
                   | H : Negotiator.setLocalDescription _ _ = _ |- _ => rewrite H
                   | H : Negotiator.setRemoteDescription _ _ = _ |- _ => rewrite H
                   end)).

Ltac net_settle :=
  repeat (erewrite NetFacts.settle_step;
          [| unfold Net.step; net_crunch; reflexivity]);
  rewrite NetFacts.settle_quiet by reflexivity.

(** The same for [settle fuel peers (open p w)] inside the goal, [w]
    being written out. *)
Ltac net_open :=
  match goal with
  | |- context [Net.settle ?f ?ps (Net.open ?p (Net.mkWorld ?r ?q ?l))] =>
      let H := fresh "Hsettled" in
      eassert (H : Net.settle f ps (Net.open p (Net.mkWorld r q l)) = _);
      [ unfold Net.open; net_crunch; net_settle; reflexivity
      | rewrite H; clear H ]
  end.



(** X5 — The handshake, when the responder is there first.  If the
    responder opens before the initiator, the announcement of the second
    page goes to the responder, whose handler does nothing, and the
    initiator is told of nobody: the exchange comes to rest after the two
    joins; no offer is created, whatever the peer connections would
    answer. *)
Theorem handshake_responder_first :
  forall a b code pcA pcB openA openB fuel,
    a <> b ->
    let A := Net.mkPeer a (Negotiator.mkConfig code false openA) pcA in
    let B := Net.mkPeer b (Negotiator.mkConfig code true openB) pcB in
    let w := Net.meet (2 + fuel) [B; A] in
    Net.queue w = [] /\
    Net.log w =
      [(b, Negotiator.NewPeerConnection);
       (b, Negotiator.EmitJoinRoom code);
       (a, Negotiator.NewPeerConnection);
       (a, Negotiator.CreateDataChannel "file" true);
       (a, Negotiator.EmitJoinRoom code)] /\
    existsb Negotiator.offers (map snd (Net.log w)) = false.
Proof.
  intros a b code pcA pcB openA openB fuel Hab A B w.
  assert (Eab : String.eqb a b = false) by now apply String.eqb_neq.
  assert (Eba : String.eqb b a = false) by (apply String.eqb_neq; congruence).
  subst w A B. unfold Net.meet, Net.start. cbn [fold_left Nat.add].
  destruct (String.eqb_spec a code) as [<- | Hac].
  - net_open. net_open. repeat split.
  - assert (Eac : String.eqb a code = false) by now apply String.eqb_neq.
    assert (Eca : String.eqb code a = false) by (apply String.eqb_neq; congruence).
    destruct (String.eqb_spec b code) as [<- | Hbc].
    + net_open. net_open. repeat split.
    + assert (Ebc : String.eqb b code = false) by now apply String.eqb_neq.
      assert (Ecb : String.eqb code b = false) by (apply String.eqb_neq; congruence).
      net_open. net_open. repeat split.
Qed.

Lemma handshake_responder_first_witness :
  Pages.socketA <> Pages.socketB /\
  existsb Negotiator.offers
    (map snd (Net.log (Net.meet 2 [Pages.responder; Pages.initiator]))) = false.
Proof.
  assert (Hne : Pages.socketA <> Pages.socketB) by discriminate.
  split; [exact Hne |].
  exact (proj2 (proj2 (handshake_responder_first Pages.socketA Pages.socketB
           Pages.room Pages.willing Pages.willing true true 0%nat Hne))).
Defined.

(** X1 — Joining a room.  In every state the relay can reach, a
    ["join-room"] from a socket is announced with one ["peer-joined"] to
    each socket already in the room, and to no other: not to the joining
    socket itself, so that the first socket of a room causes no
    announcement at all.  The joining socket is in the room afterwards. *)
Theorem join_announced_to_the_others :
  forall events sid code,
    let st := fst (Relay.run [] events) in
    let after := Relay.handle st sid (Relay.JoinRoom code) in
    (forall t m,
       In (t, m) (snd after) <->
       m = Relay.PeerJoined /\ t <> sid /\ Relay.member st code t = true) /\
    NoDup (snd after) /\
    Relay.member (fst after) code sid = true /\
    (Relay.members st code = [] -> snd after = []).
Proof.
  intros events sid code st after. subst after. simpl.
  assert (Hnd : NoDup st) by (apply RelayFacts.run_NoDup; constructor).
  rewrite RelayFacts.others_join.
  split; [| split; [| split]].
  - intros t m. rewrite RelayFacts.tagged_In, RelayFacts.others_In. tauto.
  - apply RelayFacts.NoDup_tagged. now apply RelayFacts.others_NoDup.
  - apply RelayFacts.member_In, RelayFacts.join_In. now right.
  - intros Hempty. unfold Relay.others. now rewrite Hempty.
Qed.

(** X2 — Relaying a signal.  In every state the relay can reach, a
    ["signal"] for a room is passed on, with its data unchanged, once to
    each socket of that room other than the sender and to no socket
    outside the room; the rooms stay as they are.  The sender is not asked
    to be in the room. *)
Theorem signal_relayed_to_the_others :
  forall events sid code data,
    let st := fst (Relay.run [] events) in
    let after := Relay.handle st sid (Relay.Signal code data) in
    fst after = st /\
    (forall t m,
       In (t, m) (snd after) <->
       m = Relay.Relayed data /\ t <> sid /\ Relay.member st code t = true) /\
    NoDup (snd after).
Proof.
  intros events sid code data st after. subst after. simpl.
  assert (Hnd : NoDup st) by (apply RelayFacts.run_NoDup; constructor).
  split; [reflexivity |]. split.
  - intros t m. rewrite RelayFacts.tagged_In, RelayFacts.others_In. tauto.
  - apply RelayFacts.NoDup_tagged. now apply RelayFacts.others_NoDup.
Qed.

(** X3 — After a disconnect.  Once a socket has disconnected, whatever
    the other sockets send, the relay emits nothing to it, as long as it
    does not itself connect or join again. *)
Theorem disconnected_socket_gets_nothing :
  forall st sid events,
    (forall e, In (sid, e) events -> Relay.enters e = false) ->
    forall d,
      In d (snd (Relay.run (fst (Relay.handle st sid Relay.Disconnect)) events)) ->
      fst d <> sid.
Proof.
  intros st sid events Hquiet.
  apply RelayFacts.run_silent; [| exact Hquiet].
  intros room. apply RelayFacts.disconnect_member.
Qed.

Lemma disconnected_socket_gets_nothing_witness :
  let st := [(Pages.room, Pages.socketA); (Pages.room, Pages.socketB)] in
  let events :=
    [(Pages.socketA, Relay.Signal Pages.room (Negotiator.OfferData Pages.offerSdp));
     (Pages.socketC, Relay.JoinRoom Pages.room)] in
  Forall (fun d => fst d <> Pages.socketB)
    (snd (Relay.run (fst (Relay.handle st Pages.socketB Relay.Disconnect)) events)).
Proof.
  cbv zeta. apply Forall_forall.
  apply (disconnected_socket_gets_nothing
           [(Pages.room, Pages.socketA); (Pages.room, Pages.socketB)] Pages.socketB).
  intros e [H | [H | []]]; discriminate.
Defined.

(** ** The sender, in every run *)

Module SenderRuns.
Import Sender SenderFacts TransferFacts.

Lemma backpressure_no_write (fuel : nat) (env : Env) : forall now ch,
  Forall (fun e => match e with Write _ _ => False | _ => True end)
         (fst (backpressure fuel env now ch)).
Proof.
  induction fuel as [| k IH]; intros now ch; cbn [backpressure]; [constructor |].
  destruct (ceiling <? bufferedAmount ch).
  - specialize (IH (S now) (elapse (env now) ch)).
    destruct (backpressure k env (S now) (elapse (env now) ch)) as [tr r].
    simpl in *. repeat constructor. exact IH.
  - repeat constructor.
Qed.

Lemma backpressure_stays_open (fuel : nat) (env : Env) :
  (forall t, closes (env t) = false) ->
  forall now ch tr now' ch',
    backpressure fuel env now ch = (tr, Some (now', ch')) ->
    readyState ch' = readyState ch.
Proof.
  intros Hcalm.
  induction fuel as [| k IH]; intros now ch tr now' ch' H; cbn [backpressure] in H;
    [discriminate |].
  destruct (ceiling <? bufferedAmount ch).
  - destruct (backpressure k env (S now) (elapse (env now) ch)) as [tr0 r0] eqn:E.
    injection H as <- ->. rewrite (IH _ _ _ _ _ E).
    unfold elapse; simpl. now rewrite Hcalm.
  - now injection H as <- <- <-.
Qed.

Lemma slice_at_most_chunk (f : File.t) (o : Z) :
  0 <= o -> byteLength (File.slice f o (o + CHUNK_SIZE)) <= CHUNK_SIZE.
Proof.
  intros Ho. pose proof CHUNK_SIZE_pos.
  rewrite slice_byteLength by lia. lia.
Qed.

Section Runs.
Variable textBytes : Meta.t -> N.

(** What has been written is the beginning of what is to be written. *)
Lemma loop_prefix (fuel : nat) (env : Env) (f : File.t) (hp : bool) :
  forall now ch offset,
    0 <= offset ->
    frames (fst (loop textBytes fuel env now ch f hp offset)) =
      map Binary (payloads (fst (loop textBytes fuel env now ch f hp offset))) /\
    exists rest,
      slices (chunkCount (File.size f - offset)) f offset =
      payloads (fst (loop textBytes fuel env now ch f hp offset)) ++ rest.
Proof.
  pose proof CHUNK_SIZE_pos as Hc.
  induction fuel as [| k IH]; intros now ch offset Ho.
  - simpl. split; [reflexivity | eexists; reflexivity].
  - destruct (loop_cases textBytes k env now ch f hp offset)
      as [[_ E] | [[_ [tr1 [Hbp E]]] | [[_ [tr1 [now1 [ch1 [Hbp [Hs E]]]]]]
                                       | [Hlt [tr1 [now1 [ch1 [ch3 [Hbp Hs]]]]]]]]].
    + rewrite E. simpl. split; [reflexivity | eexists; reflexivity].
    + rewrite E. cbn [fst].
      pose proof (backpressure_quiet k env now ch) as [Hq1 [Hq2 _]].
      rewrite Hbp in Hq1, Hq2. cbn [fst] in Hq1, Hq2. rewrite Hq1, Hq2.
      split; [reflexivity | eexists; reflexivity].
    + rewrite E. cbn [fst].
      pose proof (backpressure_quiet k env now ch) as [Hq1 [Hq2 _]].
      rewrite Hbp in Hq1, Hq2. cbn [fst] in Hq1, Hq2.
      rewrite frames_app, payloads_app, Hq1, Hq2.
      split; [reflexivity | eexists; reflexivity].
    + rewrite (loop_turn textBytes _ _ _ _ _ _ _ _ _ _ _ Hlt Hbp Hs). cbn [fst].
      pose proof (backpressure_quiet k env now ch) as [Hq1 [Hq2 _]].
      rewrite Hbp in Hq1, Hq2. cbn [fst] in Hq1, Hq2.
      destruct (IH (S now1) ch3 (offset + CHUNK_SIZE) ltac:(lia)) as [Hfr [rest Hrest]].
      rewrite chunkCount_step by lia.
      replace (File.size f - offset - CHUNK_SIZE)
        with (File.size f - (offset + CHUNK_SIZE)) by lia.
      rewrite frames_app, payloads_app, Hq1, Hq2. cbn [slices].
      destruct hp; project; rewrite Hfr, Hrest.
      * split; [reflexivity | exists rest; reflexivity].
      * split; [reflexivity | exists rest; reflexivity].
Qed.

(** After a chunk is written the queue holds at most the ceiling and one
    chunk. *)
Lemma loop_queue_bound (fuel : nat) (env : Env) (f : File.t) (hp : bool) :
  forall now ch offset,
    0 <= offset ->
    Forall (fun e => match e with
                     | Write b (Binary d) => b + byteLength d <= ceiling + CHUNK_SIZE
                     | _ => True
                     end)
           (fst (loop textBytes fuel env now ch f hp offset)).
Proof.
  pose proof CHUNK_SIZE_pos as Hc.
  assert (Hquiet : forall k env now ch,
            Forall (fun e => match e with
                             | Write b (Binary d) =>
                                 b + byteLength d <= ceiling + CHUNK_SIZE
                             | _ => True
                             end) (fst (backpressure k env now ch))).
  { intros. eapply Forall_impl; [| apply backpressure_no_write].
    intros [b fr | | | |]; simpl; tauto. }
  induction fuel as [| k IH]; intros now ch offset Ho; [constructor |].
  destruct (loop_cases textBytes k env now ch f hp offset)
    as [[_ E] | [[_ [tr1 [Hbp E]]] | [[_ [tr1 [now1 [ch1 [Hbp [Hs E]]]]]]
                                     | [Hlt [tr1 [now1 [ch1 [ch3 [Hbp Hs]]]]]]]]].
  - rewrite E. constructor.
  - rewrite E. cbn [fst]. specialize (Hquiet k env now ch). now rewrite Hbp in Hquiet.
  - rewrite E. cbn [fst]. specialize (Hquiet k env now ch). rewrite Hbp in Hquiet.
    apply Forall_app. split; [exact Hquiet | repeat constructor].
  - rewrite (loop_turn textBytes _ _ _ _ _ _ _ _ _ _ _ Hlt Hbp Hs). cbn [fst].
    specialize (Hquiet k env now ch). rewrite Hbp in Hquiet. cbn [fst] in Hquiet.
    destruct (backpressure_exit _ _ _ _ _ _ _ Hbp) as [Hle _].
    pose proof (elapse_buffered_le (env now1) ch1) as Hel.
    pose proof (slice_at_most_chunk f offset Ho) as Hsl.
    apply Forall_app. split; [exact Hquiet |].
    constructor; [exact I |]. constructor.
    + rewrite ceiling_eq in *. lia.
    + apply Forall_app. split; [destruct hp; repeat constructor |].
      apply IH. lia.
Qed.

(** The values reported are the offsets after each chunk written. *)
Lemma loop_progress_offsets (fuel : nat) (env : Env) (f : File.t) (hp : bool) :
  forall now ch offset,
    progressCalls (fst (loop textBytes fuel env now ch f hp offset)) =
    if hp
    then map (fun o => (percent o (File.size f), o))
             (offsets (length (payloads (fst (loop textBytes fuel env now ch f hp offset))))
                      offset)
    else [].
Proof.
  induction fuel as [| k IH]; intros now ch offset; [destruct hp; reflexivity |].
  destruct (loop_cases textBytes k env now ch f hp offset)
    as [[_ E] | [[_ [tr1 [Hbp E]]] | [[_ [tr1 [now1 [ch1 [Hbp [Hs E]]]]]]
                                     | [Hlt [tr1 [now1 [ch1 [ch3 [Hbp Hs]]]]]]]]].
  - rewrite E. destruct hp; reflexivity.
  - rewrite E. cbn [fst].
    pose proof (backpressure_quiet k env now ch) as [_ [Hq2 Hq3]].
    rewrite Hbp in Hq2, Hq3. cbn [fst] in Hq2, Hq3. rewrite Hq2, Hq3.
    destruct hp; reflexivity.
  - rewrite E. cbn [fst].
    pose proof (backpressure_quiet k env now ch) as [_ [Hq2 Hq3]].
    rewrite Hbp in Hq2, Hq3. cbn [fst] in Hq2, Hq3.
    rewrite progressCalls_app, payloads_app, Hq2, Hq3.
    destruct hp; reflexivity.
  - rewrite (loop_turn textBytes _ _ _ _ _ _ _ _ _ _ _ Hlt Hbp Hs). cbn [fst].
    pose proof (backpressure_quiet k env now ch) as [_ [Hq2 Hq3]].
    rewrite Hbp in Hq2, Hq3. cbn [fst] in Hq2, Hq3.
    specialize (IH (S now1) ch3 (offset + CHUNK_SIZE)).
    rewrite progressCalls_app, payloads_app, Hq2, Hq3.
    destruct hp; project; rewrite IH; reflexivity.
Qed.

(** The loop is rejected only by [dc.send], on a channel that is not
    open. *)
Lemma loop_rejected (fuel : nat) (env : Env) (f : File.t) (hp : bool) :
  forall now ch offset e dc',
    snd (loop textBytes fuel env now ch f hp offset) = Rejected e dc' ->
    e = InvalidState /\ exists ch', dc' = Some ch' /\ is_open ch' = false.
Proof.
  induction fuel as [| k IH]; intros now ch offset e dc' H; [discriminate |].
  destruct (loop_cases textBytes k env now ch f hp offset)
    as [[_ E] | [[_ [tr1 [Hbp E]]] | [[_ [tr1 [now1 [ch1 [Hbp [Hs E]]]]]]
                                     | [Hlt [tr1 [now1 [ch1 [ch3 [Hbp Hs]]]]]]]]].
  - rewrite E in H. discriminate.
  - rewrite E in H. discriminate.
  - rewrite E in H. injection H as <- <-. split; [reflexivity |].
    eexists. split; [reflexivity |].
    unfold send in Hs. destruct (is_open (elapse (env now1) ch1));
      [discriminate | reflexivity].
  - rewrite (loop_turn textBytes _ _ _ _ _ _ _ _ _ _ _ Hlt Hbp Hs) in H.
    cbn [snd] in H. now apply IH in H.
Qed.

(** While the channel stays open the loop is never rejected. *)
Lemma loop_not_rejected (fuel : nat) (env : Env) (f : File.t) (hp : bool) :
  (forall t, closes (env t) = false) ->
  forall now ch offset e dc',
    is_open ch = true ->
    snd (loop textBytes fuel env now ch f hp offset) <> Rejected e dc'.
Proof.
  intros Hcalm.
  induction fuel as [| k IH]; intros now ch offset e dc' Hopen; [discriminate |].
  destruct (loop_cases textBytes k env now ch f hp offset)
    as [[_ E] | [[_ [tr1 [Hbp E]]] | [[_ [tr1 [now1 [ch1 [Hbp [Hs E]]]]]]
                                     | [Hlt [tr1 [now1 [ch1 [ch3 [Hbp Hs]]]]]]]]].
  - rewrite E. discriminate.
  - rewrite E. discriminate.
  - exfalso. unfold send in Hs.
    assert (Ho : is_open (elapse (env now1) ch1) = true).
    { unfold is_open, elapse in *. simpl. rewrite Hcalm.
      now rewrite (backpressure_stays_open _ _ Hcalm _ _ _ _ _ Hbp). }
    rewrite Ho in Hs. discriminate.
  - rewrite (loop_turn textBytes _ _ _ _ _ _ _ _ _ _ _ Hlt Hbp Hs). cbn [snd].
    apply IH. unfold send in Hs.
    destruct (is_open (elapse (env now1) ch1)) eqn:Ho; [| discriminate].
    injection Hs as <-. exact Ho.
Qed.

End Runs.

End SenderRuns.

(** X6 — Nothing out of order.  In every run of [sendFileOverRTC],
    finished, failed or still going, whatever the environment does, the
    frames written so far are a beginning of the sequence "metadata, then
    the slices of the file in order": no frame is repeated, left out or
    swapped.  A run that resolves has written the whole sequence, and its
    binary payloads put together are the file, for every file, the empty
    one included. *)
Theorem written_frames_are_a_prefix :
  forall textBytes fuel env file dc setProgress,
    let run := sendFileOverRTC textBytes fuel env file dc setProgress in
    let whole := Text (metadata file)
                   :: map Binary (slices (chunkCount (File.size file)) file 0) in
    (exists rest, whole = frames (fst run) ++ rest) /\
    (resolved (snd run) = true ->
     frames (fst run) = whole /\ concat (payloads (fst run)) = File.bytes file).
Proof.
  intros textBytes fuel env file dc setProgress run whole. subst run whole.
  split.
  - destruct dc as [ch |]; [| simpl; eauto].
    destruct (is_open ch) eqn:Hopen.
    + rewrite sendFileOverRTC_open by exact Hopen. cbn [fst].
      destruct (SenderRuns.loop_prefix textBytes fuel env file setProgress 0%nat
                  (queued textBytes ch file) 0 (Z.le_refl 0)) as [Hfr [rest Hrest]].
      rewrite Z.sub_0_r in Hrest. rewrite frames_cons, Hfr, Hrest. cbn [app].
      exists (map Binary rest). now rewrite map_app.
    + rewrite sendFileOverRTC_not_open by exact Hopen. simpl. eauto.
  - intros Hres.
    destruct (sendFileOverRTC textBytes fuel env file dc setProgress)
      as [tr out] eqn:Erun.
    cbn [fst snd] in *. destruct out as [ch' | |]; try discriminate.
    destruct (sendFileOverRTC_resolved textBytes _ _ _ _ _ _ _ Erun) as [Hframes _].
    split; [exact Hframes |].
    assert (Hpay : payloads tr = slices (chunkCount (File.size file)) file 0).
    { destruct dc as [ch |]; [| discriminate].
      destruct (is_open ch) eqn:Hopen.
      - rewrite sendFileOverRTC_open in Erun by exact Hopen.
        injection Erun as <- Hout.
        destruct (loop textBytes fuel env 0 (queued textBytes ch file) file setProgress 0)
          as [tr0 out0] eqn:E.
        cbn [fst snd] in *. subst out0.
        destruct (loop_resolved textBytes fuel env file setProgress 0%nat
                    (queued textBytes ch file) 0 tr0 ch' (Z.le_refl 0) E) as [Hp _].
        rewrite Z.sub_0_r in Hp. rewrite payloads_cons. exact Hp.
      - rewrite sendFileOverRTC_not_open in Erun by exact Hopen. discriminate. }
    rewrite Hpay. apply slices_whole.
Qed.

Lemma written_frames_are_a_prefix_witness :
  let run := sendFileOverRTC Samples.eighty 3 Samples.steady Samples.tiny
               (Some Samples.fresh) false in
  resolved (snd run) = true /\
  concat (payloads (fst run)) = [x01; x02; x03].
Proof.
  cbv zeta.
  assert (Hres : resolved (snd (sendFileOverRTC Samples.eighty 3 Samples.steady
                                  Samples.tiny (Some Samples.fresh) false)) = true)
    by reflexivity.
  split; [exact Hres |].
  exact (proj2 (proj2 (written_frames_are_a_prefix Samples.eighty 3%nat Samples.steady
                         Samples.tiny (Some Samples.fresh) false) Hres)).
Defined.

(** X7 — Bound on the send queue.  In every run, right after a chunk has
    been handed to [dc.send] the queue holds at most the ceiling and one
    chunk, 9 * 65536 = 589824 bytes: [bufferedAmount] at the write plus the
    length of the chunk written never exceeds that. *)
Theorem queue_bounded_after_write :
  forall textBytes fuel env file dc setProgress,
    ceiling + CHUNK_SIZE = 589824 /\
    Forall (fun e => match e with
                     | Write buffered (Binary data) =>
                         buffered + byteLength data <= ceiling + CHUNK_SIZE
                     | _ => True
                     end)
           (fst (sendFileOverRTC textBytes fuel env file dc setProgress)).
Proof.
  intros textBytes fuel env file dc setProgress. split; [reflexivity |].
  destruct dc as [ch |]; [| constructor].
  destruct (is_open ch) eqn:Hopen.
  - rewrite sendFileOverRTC_open by exact Hopen. cbn [fst].
    constructor; [exact I |].
    apply (SenderRuns.loop_queue_bound textBytes fuel env file setProgress). lia.
  - rewrite sendFileOverRTC_not_open by exact Hopen. constructor.
Qed.

(** X8 — What the sender reports.  In every run with a progress callback,
    the callback is called once per chunk written, and the k-th call
    reports k * 65536 bytes (the offset after the k-th turn) and that
    offset over the file size, times 100; without a callback nothing is
    reported. *)
Theorem progress_reports_offsets :
  forall textBytes fuel env file dc setProgress,
    let tr := fst (sendFileOverRTC textBytes fuel env file dc setProgress) in
    progressCalls tr =
    if setProgress
    then map (fun k => (percent (65536 * Z.of_nat k) (File.size file),
                        65536 * Z.of_nat k))
             (seq 1 (length (payloads tr)))
    else [].
Proof.
  assert (Hoff : forall n o,
            offsets n o = map (fun k => o + 65536 * Z.of_nat k) (seq 1 n)).
  { induction n as [| n IH]; intros o; [reflexivity |].
    cbn [offsets seq map]. rewrite IH, <- (seq_shift n 1), map_map.
    f_equal; try (rewrite CHUNK_SIZE_eq; lia).
    apply map_ext. intros k. rewrite CHUNK_SIZE_eq. lia. }
  intros textBytes fuel env file dc setProgress tr. subst tr.
  destruct dc as [ch |]; [| destruct setProgress; reflexivity].
  destruct (is_open ch) eqn:Hopen.
  - rewrite sendFileOverRTC_open by exact Hopen. cbn [fst].
    rewrite progressCalls_cons, payloads_cons. cbn [app].
    rewrite (SenderRuns.loop_progress_offsets textBytes fuel env file setProgress).
    destruct setProgress; [| reflexivity].
    rewrite Hoff, map_map. apply map_ext. intros k. reflexivity.
  - rewrite sendFileOverRTC_not_open by exact Hopen.
    destruct setProgress; reflexivity.
Qed.

(** X9 — How a run can fail.  The promise is rejected in two ways only:
    with "DataChannel is not open", before anything is written; or by
    [dc.send] in the loop, and then the channel is found not open.  On a
    channel that is open at the call and is not closed during the
    suspensions, the promise is never rejected. *)
Theorem rejected_only_when_not_open :
  forall textBytes fuel env file dc setProgress,
    let run := sendFileOverRTC textBytes fuel env file dc setProgress in
    (forall e dc',
       snd run = Rejected e dc' ->
       (e = NotOpen /\ fst run = []) \/
       (e = InvalidState /\ exists ch', dc' = Some ch' /\ is_open ch' = false)) /\
    ((forall t, closes (env t) = false) ->
     (exists ch, dc = Some ch /\ readyState ch = Open) ->
     forall e dc', snd run <> Rejected e dc').
Proof.
  intros textBytes fuel env file dc setProgress run. subst run.
  split.
  - intros e dc' H. destruct dc as [ch |].
    + destruct (is_open ch) eqn:Hopen.
      * rewrite sendFileOverRTC_open in H by exact Hopen. cbn [snd] in H.
        right. eapply SenderRuns.loop_rejected, H.
      * rewrite sendFileOverRTC_not_open in * by exact Hopen.
        injection H as <- <-. now left.
    + simpl in *. injection H as <- <-. now left.
  - intros Hcalm [ch [-> Hready]] e dc'. apply is_open_iff in Hready.
    rewrite sendFileOverRTC_open by exact Hready. cbn [snd].
    now apply SenderRuns.loop_not_rejected.
Qed.

Lemma rejected_only_when_not_open_witness :
  (forall t, closes (Samples.steady t) = false) /\
  (exists ch, Some Samples.fresh = Some ch /\ readyState ch = Open) /\
  snd (sendFileOverRTC Samples.eighty 3 Samples.steady Samples.tiny
         (Some Samples.fresh) false) <> Rejected InvalidState None.
Proof.
  assert (Hcalm : forall t, closes (Samples.steady t) = false) by reflexivity.
  assert (Hopen : exists ch, Some Samples.fresh = Some ch /\ readyState ch = Open)
    by (exists Samples.fresh; split; reflexivity).
  split; [exact Hcalm |]. split; [exact Hopen |].
  exact (proj2 (rejected_only_when_not_open Samples.eighty 3%nat Samples.steady
                  Samples.tiny (Some Samples.fresh) false) Hcalm Hopen
               InvalidState None).
Defined.

(** ** The receiver, over every sequence of frames *)

Module ReceiverRuns.
Import Receiver ReceiverFacts Wire.


Lemma binaries_app (a b : list Frame) : binaries (a ++ b) = binaries a ++ binaries b.
Proof. apply flat_map_app. Qed.

Lemma binaries_map (datas : list (list byte)) : binaries (map Binary datas) = datas.
Proof.
  induction datas as [| d ds IH]; [reflexivity |].
  change (binaries (map Binary (d :: ds))) with (d :: binaries (map Binary ds)).
  now rewrite IH.
Qed.




(** With the counter at or past the declared size, buffers that are not
    empty complete nothing. *)
Lemma deliver_no_room onProgress (datas : list (list byte)) : forall st m,
  meta st = Some m ->
  Meta.size m <= receivedBytes st ->
  Forall (fun d => 0 < byteLength d) datas ->
  completions (snd (deliver onProgress st (map Binary datas))) = [].
Proof.
  intros st m Hm Hle Hpos.
  destruct datas as [| d ds]; [reflexivity |].
  inversion Hpos as [| ? ? Hd Hds]; subst.
  change (map Binary (d :: ds)) with (Binary d :: map Binary ds).
  rewrite deliver_cons. cbn [snd]. rewrite completions_app.
  assert (Hne : (receivedBytes st + byteLength d =? Meta.size m) = false)
    by (apply Z.eqb_neq; lia).
  rewrite (deliver_overshoot onProgress (map Binary ds) _ m).
  - cbn [onmessage snd]. rewrite Hm, Hne, app_nil_r.
    destruct onProgress; reflexivity.
  - simpl. exact Hm.
  - simpl. lia.
  - intros m' Hin. apply in_map_iff in Hin. destruct Hin as [x [H _]]. discriminate.
Qed.

(** Binary frames leave the metadata as it is. *)
Lemma meta_kept onProgress (datas : list (list byte)) (st : State) :
  meta (fst (deliver onProgress st (map Binary datas))) = meta st.
Proof.
  revert st.
  induction datas as [| d ds IH]; intros st; [reflexivity |].
  change (map Binary (d :: ds)) with (Binary d :: map Binary ds).
  rewrite deliver_cons. cbn [fst]. rewrite IH. reflexivity.
Qed.

End ReceiverRuns.



(** X11 — A channel is good for one file.  The handler never resets its
    counter or its fragments.  So when a first file, not empty, has been
    sent and received, and a second file that is not larger is sent over
    the same channel, the completion callback is called for the first file
    only: the second transfer never completes. *)
Theorem second_transfer_never_completes :
  forall textBytes fuel1 env1 fuel2 env2 file1 file2 dc1 dc2 set1 set2 onProgress,
    let run1 := sendFileOverRTC textBytes fuel1 env1 file1 dc1 set1 in
    let run2 := sendFileOverRTC textBytes fuel2 env2 file2 dc2 set2 in
    resolved (snd run1) = true ->
    resolved (snd run2) = true ->
    0 < File.size file1 ->
    File.size file2 <= File.size file1 ->
    completions
      (snd (deliver onProgress init (frames (fst run1) ++ frames (fst run2)))) =
    [(metadata file1, Blob.mk (File.bytes file1) (File.type file1))].
Proof.
  intros textBytes fuel1 env1 fuel2 env2 file1 file2 dc1 dc2 set1 set2 onProgress
    run1 run2 Hres1 Hres2 Hpos Hle. subst run1 run2.
  destruct (sendFileOverRTC textBytes fuel1 env1 file1 dc1 set1) as [tr1 out1] eqn:E1.
  destruct (sendFileOverRTC textBytes fuel2 env2 file2 dc2 set2) as [tr2 out2] eqn:E2.
  cbn [fst snd] in *.
  destruct out1 as [ch1 | |]; try discriminate.
  destruct out2 as [ch2 | |]; try discriminate.
  destruct (sendFileOverRTC_resolved textBytes _ _ _ _ _ _ _ E1) as [Hf1 _].
  destruct (sendFileOverRTC_resolved textBytes _ _ _ _ _ _ _ E2) as [Hf2 _].
  rewrite Hf1, Hf2, deliver_app. cbn [snd]. rewrite completions_app.
  pose proof (chunkCount_bounds (File.size file1) Hpos) as Hb.
  pose proof CHUNK_SIZE_pos as Hc.
  (* the first file *)
  rewrite (deliver_cons onProgress init). cbn [onmessage fst snd app].
  destruct (deliver_chunks onProgress (slices (chunkCount (File.size file1)) file1 0)
              (mkState (Some (metadata file1)) (receivedBytes init) (chunks init))
              (metadata file1)) as [Hcompl [Hrecv Hchunks]].
  { reflexivity. }
  { intros Hnil. apply (f_equal (@length _)) in Hnil.
    rewrite slices_length in Hnil. simpl in Hnil. nia. }
  { apply slices_nonempty. }
  { rewrite total_concat, slices_whole. reflexivity. }
  cbn [chunks receivedBytes init app] in Hcompl, Hrecv, Hchunks |- *.
  rewrite Hcompl.
  unfold Blob.of_parts at 1. rewrite slices_whole. cbn [metadata Meta.type].
  (* the second file *)
  rewrite deliver_cons. cbn [onmessage fst snd app].
  rewrite (ReceiverRuns.deliver_no_room onProgress _ _ (metadata file2)).
  - reflexivity.
  - reflexivity.
  - cbn [receivedBytes]. rewrite Hrecv. exact Hle.
  - apply slices_nonempty.
Qed.

Lemma second_transfer_never_completes_witness :
  let run := sendFileOverRTC Samples.eighty 3 Samples.steady Samples.tiny
               (Some Samples.fresh) false in
  resolved (snd run) = true /\
  0 < File.size Samples.tiny /\
  File.size Samples.tiny <= File.size Samples.tiny /\
  completions (snd (deliver true init (frames (fst run) ++ frames (fst run)))) =
    [(metadata Samples.tiny, Blob.mk [x01; x02; x03] "application/octet-stream")].
Proof.
  cbv zeta.
  assert (Hres : resolved (snd (sendFileOverRTC Samples.eighty 3 Samples.steady
                                  Samples.tiny (Some Samples.fresh) false)) = true)
    by reflexivity.
  assert (Hpos : 0 < File.size Samples.tiny) by (vm_compute; reflexivity).
  split; [exact Hres |]. split; [exact Hpos |]. split; [lia |].
  exact (second_transfer_never_completes Samples.eighty 3%nat Samples.steady 3%nat
           Samples.steady Samples.tiny Samples.tiny (Some Samples.fresh)
           (Some Samples.fresh) false false true Hres Hres Hpos (Z.le_refl _)).
Defined.

Module ReuseFacts.
Import Sender SenderFacts TransferFacts Receiver ReceiverFacts.

Lemma slices_split (j r : nat) (f : File.t) : forall o,
  slices (j + r) f o = slices j f o ++ slices r f (o + Z.of_nat j * CHUNK_SIZE).
Proof.
  induction j as [| j IH]; intros o.
  - simpl. f_equal. lia.
  - cbn [Nat.add slices app]. rewrite IH. do 3 f_equal. lia.
Qed.

Lemma chunkCount_add (j : nat) (s : Z) :
  0 < s -> chunkCount (s + Z.of_nat j * CHUNK_SIZE) = (j + chunkCount s)%nat.
Proof.
  intros Hs. pose proof CHUNK_SIZE_pos as Hc.
  induction j as [| j IH].
  - simpl. f_equal. lia.
  - rewrite chunkCount_step by nia.
    replace (s + Z.of_nat (S j) * CHUNK_SIZE - CHUNK_SIZE)
      with (s + Z.of_nat j * CHUNK_SIZE) by lia.
    rewrite IH. reflexivity.
Qed.

(** The first [j] slices of a file that has [j] full chunks. *)
Lemma slices_full (j : nat) (f : File.t) : forall o,
  0 <= o ->
  o + Z.of_nat j * CHUNK_SIZE <= File.size f ->
  total (slices j f o) = Z.of_nat j * CHUNK_SIZE /\
  Forall (fun d => 0 < byteLength d) (slices j f o).
Proof.
  pose proof CHUNK_SIZE_pos as Hc.
  induction j as [| j IH]; intros o Ho Hfit.
  - simpl. split; [reflexivity | constructor].
  - cbn [slices]. rewrite total_cons.
    destruct (IH (o + CHUNK_SIZE) ltac:(lia) ltac:(lia)) as [Ht Hall].
    assert (Hlen : byteLength (File.slice f o (o + CHUNK_SIZE)) = CHUNK_SIZE)
      by (rewrite slice_byteLength by lia; lia).
    split; [rewrite Ht, Hlen; lia |].
    constructor; [rewrite Hlen; exact Hc | exact Hall].
Qed.

Lemma slices_firstn (j : nat) (f : File.t) :
  Z.of_nat j * CHUNK_SIZE <= File.size f ->
  concat (slices j f 0) = firstn (Z.to_nat (Z.of_nat j * CHUNK_SIZE)) (File.bytes f).
Proof.
  intros Hfit. pose proof CHUNK_SIZE_pos as Hc.
  pose proof (slices_concat j f 0 (Z.le_refl 0)) as Hcat.
  destruct (slices_full j f 0 (Z.le_refl 0) ltac:(lia)) as [Htot _].
  rewrite total_concat in Htot. unfold byteLength in Htot.
  unfold rest in Hcat. simpl (Z.to_nat 0) in Hcat. rewrite skipn_O in Hcat.
  rewrite <- Hcat at 1.
  rewrite firstn_app.
  replace (Z.to_nat (Z.of_nat j * CHUNK_SIZE) - length (concat (slices j f 0)))%nat
    with 0%nat by lia.
  rewrite firstn_O, app_nil_r. symmetry. apply firstn_all2. lia.
Qed.

End ReuseFacts.

(** X12 — A second file that is larger by whole chunks.  If, after a
    first file that is not empty, a second file is sent over the same
    channel whose size is that of the first plus j chunks of 65536 bytes
    (j at least 1), the handler calls the completion callback a second
    time, after the j-th chunk of the second file, with the metadata of the
    second file and a content that is the whole first file followed by the
    first j chunks of the second, which has the declared size. *)
Theorem second_transfer_mixes_files :
  forall textBytes fuel1 env1 fuel2 env2 file1 file2 dc1 dc2 set1 set2 onProgress j,
    let run1 := sendFileOverRTC textBytes fuel1 env1 file1 dc1 set1 in
    let run2 := sendFileOverRTC textBytes fuel2 env2 file2 dc2 set2 in
    resolved (snd run1) = true ->
    resolved (snd run2) = true ->
    0 < File.size file1 ->
    (1 <= j)%nat ->
    File.size file2 = File.size file1 + Z.of_nat j * CHUNK_SIZE ->
    completions
      (snd (deliver onProgress init (frames (fst run1) ++ frames (fst run2)))) =
    [(metadata file1, Blob.mk (File.bytes file1) (File.type file1));
     (metadata file2,
      Blob.mk (File.bytes file1
                 ++ firstn (Z.to_nat (Z.of_nat j * CHUNK_SIZE)) (File.bytes file2))
              (File.type file2))].
Proof.
  intros textBytes fuel1 env1 fuel2 env2 file1 file2 dc1 dc2 set1 set2 onProgress j
    run1 run2 Hres1 Hres2 Hpos Hj Hsize. subst run1 run2.
  destruct (sendFileOverRTC textBytes fuel1 env1 file1 dc1 set1) as [tr1 out1] eqn:E1.
  destruct (sendFileOverRTC textBytes fuel2 env2 file2 dc2 set2) as [tr2 out2] eqn:E2.
  cbn [fst snd] in *.
  destruct out1 as [ch1 | |]; try discriminate.
  destruct out2 as [ch2 | |]; try discriminate.
  destruct (sendFileOverRTC_resolved textBytes _ _ _ _ _ _ _ E1) as [Hf1 _].
  destruct (sendFileOverRTC_resolved textBytes _ _ _ _ _ _ _ E2) as [Hf2 _].
  rewrite Hf1, Hf2, deliver_app. cbn [snd]. rewrite completions_app.
  pose proof (chunkCount_bounds (File.size file1) Hpos) as Hb.
  pose proof CHUNK_SIZE_pos as Hc.
  (* the first file *)
  rewrite (deliver_cons onProgress init). cbn [onmessage fst snd app].
  destruct (deliver_chunks onProgress (slices (chunkCount (File.size file1)) file1 0)
              (mkState (Some (metadata file1)) (receivedBytes init) (chunks init))
              (metadata file1)) as [Hcompl [Hrecv Hchunks]].
  { reflexivity. }
  { intros Hnil. apply (f_equal (@length _)) in Hnil.
    rewrite slices_length in Hnil. simpl in Hnil. nia. }
  { apply slices_nonempty. }
  { rewrite total_concat, slices_whole. reflexivity. }
  cbn [chunks receivedBytes init app] in Hcompl, Hrecv, Hchunks |- *.
  rewrite Hcompl.
  unfold Blob.of_parts at 1. rewrite slices_whole. cbn [metadata Meta.type].
  cbn [app]. f_equal.
  (* the second file: its first j chunks, then the others *)
  rewrite deliver_cons. cbn [onmessage fst snd app].
  rewrite Hsize, ReuseFacts.chunkCount_add, ReuseFacts.slices_split by exact Hpos.
  rewrite map_app, deliver_app. cbn [snd]. rewrite completions_app.
  destruct (ReuseFacts.slices_full j file2 0 (Z.le_refl 0) ltac:(lia)) as [Htot Hfull].
  match goal with
  | |- context [deliver onProgress ?st (map Binary (slices j file2 0))] =>
      destruct (deliver_chunks onProgress (slices j file2 0) st (metadata file2))
        as [Hcompl2 [Hrecv2 Hchunks2]]
  end.
  { reflexivity. }
  { destruct j as [| j']; [lia | discriminate]. }
  { exact Hfull. }
  { cbn [receivedBytes]. rewrite Hrecv, Htot. simpl. lia. }
  rewrite Hcompl2.
  rewrite (ReceiverRuns.deliver_no_room onProgress _ _ (metadata file2)).
  - cbn [chunks app]. rewrite Hchunks.
    unfold Blob.of_parts. rewrite concat_app, slices_whole.
    rewrite ReuseFacts.slices_firstn by lia. reflexivity.
  - rewrite ReceiverRuns.meta_kept. reflexivity.
  - rewrite Hrecv2. lia.
  - pose proof (slices_nonempty file2) as Hall.
    rewrite Hsize, ReuseFacts.chunkCount_add, ReuseFacts.slices_split in Hall
      by exact Hpos.
    apply Forall_app in Hall. rewrite Z.add_0_l in *. tauto.
Qed.

Lemma second_transfer_mixes_files_witness :
  let run1 := sendFileOverRTC Samples.eighty 3 Samples.steady Samples.tiny
                (Some Samples.fresh) false in
  let run2 := sendFileOverRTC Samples.eighty 4 Samples.steady Samples.grown
                (Some Samples.fresh) false in
  resolved (snd run1) = true /\
  resolved (snd run2) = true /\
  0 < File.size Samples.tiny /\
  File.size Samples.grown = File.size Samples.tiny + Z.of_nat 1 * CHUNK_SIZE /\
  completions
    (snd (deliver true init (frames (fst run1) ++ frames (fst run2)))) =
  [(metadata Samples.tiny,
    Blob.mk (File.bytes Samples.tiny) (File.type Samples.tiny));
   (metadata Samples.grown,
    Blob.mk (File.bytes Samples.tiny
               ++ firstn (Z.to_nat (Z.of_nat 1 * CHUNK_SIZE))
                    (File.bytes Samples.grown))
            (File.type Samples.grown))].
Proof.
  cbv zeta.
  assert (Hres1 : resolved (snd (sendFileOverRTC Samples.eighty 3 Samples.steady
                                   Samples.tiny (Some Samples.fresh) false)) = true)
    by reflexivity.
  assert (Hres2 : resolved (snd (sendFileOverRTC Samples.eighty 4 Samples.steady
                                   Samples.grown (Some Samples.fresh) false)) = true)
    by (vm_compute; reflexivity).
  assert (Hpos : 0 < File.size Samples.tiny) by (vm_compute; reflexivity).
  assert (Hsize : File.size Samples.grown
                  = File.size Samples.tiny + Z.of_nat 1 * CHUNK_SIZE)
    by (vm_compute; reflexivity).
  split; [exact Hres1 |]. split; [exact Hres2 |]. split; [exact Hpos |].
  split; [exact Hsize |].
  exact (second_transfer_mixes_files Samples.eighty 3%nat Samples.steady 4%nat
           Samples.steady Samples.tiny Samples.grown (Some Samples.fresh)
           (Some Samples.fresh) false false true 1%nat Hres1 Hres2 Hpos
           (le_n 1) Hsize).
Defined.

Module SessionFacts.
Import Negotiator.

Lemma outgoing_app (a b : list Action) :
  Net.outgoing (a ++ b) = Net.outgoing a ++ Net.outgoing b.
Proof. apply flat_map_app. Qed.

Lemma onSignal_outgoing (pc : PeerConnection) (cfg : Config) (data : SignalData) :
  Net.outgoing (onSignal pc cfg data) = [] \/
  exists offer answer,
    data = OfferData offer /\
    setRemoteDescription pc offer = true /\
    createAnswer pc = Some answer /\
    setLocalDescription pc answer = true /\
    onSignal pc cfg data =
      [SetRemoteDescription offer; CreateAnswer; SetLocalDescription answer;
       EmitSignal (code cfg) (AnswerData answer)].
Proof.
  destruct data as [offer | answer | candidate | ty]; cbn [onSignal].
  - destruct (setRemoteDescription pc offer) eqn:Hr; [| now left].
    destruct (createAnswer pc) as [answer |] eqn:Ha; [| now left].
    destruct (setLocalDescription pc answer) eqn:Hl; [| now left].
    right. exists offer, answer. auto.
  - left. destruct (setRemoteDescription pc answer); reflexivity.
  - left. destruct (addIceCandidate pc candidate); reflexivity.
  - now left.
Qed.

Lemma handle_outgoing (pc : PeerConnection) (cfg : Config) (st : State) (i : Input) :
  exists datas,
    Net.outgoing (snd (handle pc cfg st i)) = map (Relay.Signal (code cfg)) datas.
Proof.
  destruct i as [data | | [c |] | | |]; cbn [handle snd].
  - destruct (onSignal_outgoing pc cfg data)
      as [-> | [offer [answer [_ [_ [_ [_ ->]]]]]]].
    + now exists [].
    + now exists [AnswerData answer].
  - unfold onPeerJoined. destruct (isReceiver cfg); [now exists [] |].
    destruct (createOffer pc) as [offer |]; [| now exists []].
    destruct (setLocalDescription pc offer); [now exists [OfferData offer] | now exists []].
  - now exists [IceData c].
  - now exists [].
  - now exists [].
  - destruct (onChannelOpen cfg); now exists [].
  - now exists [].
Qed.

Lemma handleAll_outgoing (pc : PeerConnection) (cfg : Config) (inputs : list Input) :
  forall st, exists datas,
    Net.outgoing (snd (handleAll pc cfg st inputs)) = map (Relay.Signal (code cfg)) datas.
Proof.
  induction inputs as [| i more IH]; intros st; [now exists [] |].
  rewrite NegotiatorFacts.handleAll_cons, outgoing_app.
  destruct (handle_outgoing pc cfg st i) as [d1 ->].
  destruct (IH (fst (handle pc cfg st i))) as [d2 ->].
  exists (d1 ++ d2). now rewrite map_app.
Qed.

Lemma handle_channel (pc : PeerConnection) (cfg : Config) (st : State) (i : Input) :
  dataChannel (fst (handle pc cfg st i)) = dataChannel st || Connection.is_data_channel i /\
  filter Connection.is_setup (snd (handle pc cfg st i)) =
    (if Connection.is_data_channel i then [SetupReceive] else []).
Proof.
  destruct i as [data | | [c |] | | |]; cbn [handle fst snd Connection.is_data_channel];
    rewrite ?orb_false_r, ?orb_true_r; (split; [reflexivity |]).
  - destruct data as [offer | answer | candidate | ty]; cbn [onSignal].
    + destruct (setRemoteDescription pc offer); [| reflexivity].
      destruct (createAnswer pc) as [answer |]; [| reflexivity].
      destruct (setLocalDescription pc answer); reflexivity.
    + destruct (setRemoteDescription pc answer); reflexivity.
    + destruct (addIceCandidate pc candidate); reflexivity.
    + reflexivity.
  - unfold onPeerJoined. destruct (isReceiver cfg); [reflexivity |].
    destruct (createOffer pc) as [offer |]; [| reflexivity].
    destruct (setLocalDescription pc offer); reflexivity.
  - reflexivity.
  - reflexivity.
  - reflexivity.
  - destruct (onChannelOpen cfg); reflexivity.
  - reflexivity.
Qed.

Lemma handleAll_channel (pc : PeerConnection) (cfg : Config) (inputs : list Input) :
  forall st,
    dataChannel (fst (handleAll pc cfg st inputs)) =
      dataChannel st || existsb Connection.is_data_channel inputs /\
    length (filter Connection.is_setup (snd (handleAll pc cfg st inputs))) =
      length (filter Connection.is_data_channel inputs).
Proof.
  induction inputs as [| i more IH]; intros st.
  - cbn. now rewrite orb_false_r.
  - destruct (handle_channel pc cfg st i) as [Hd Hs].
    destruct (IH (fst (handle pc cfg st i))) as [IHd IHs].
    split.
    + cbn [handleAll existsb].
      destruct (handle pc cfg st i) as [st1 a1]. cbn [fst snd] in *.
      destruct (handleAll pc cfg st1 more) as [st2 a2]. cbn [fst snd] in *.
      rewrite IHd, Hd. now rewrite orb_assoc.
    + rewrite NegotiatorFacts.handleAll_cons, filter_app, length_app, Hs, IHs.
      cbn [filter]. destruct (Connection.is_data_channel i); reflexivity.
Qed.

End SessionFacts.

(** X13 — What a page sends to the server.  Whatever events arrive and
    whatever the peer connection answers, the socket messages of a session
    are the join-room with the page's code, once and first, and after it
    only signals, every one with that same code. *)
Theorem session_joins_once_then_signals :
  forall (pc : Negotiator.PeerConnection) (cfg : Negotiator.Config)
         (inputs : list Negotiator.Input),
  exists datas,
    Net.outgoing (Negotiator.session pc cfg inputs) =
    Relay.JoinRoom (Negotiator.code cfg)
      :: map (Relay.Signal (Negotiator.code cfg)) datas.
Proof.
  intros pc cfg inputs. unfold Negotiator.session, Negotiator.createWebRTCConnection.
  rewrite SessionFacts.outgoing_app.
  destruct (SessionFacts.handleAll_outgoing pc cfg inputs
              (Negotiator.mkState (negb (Negotiator.isReceiver cfg)))) as [datas ->].
  exists datas. destruct (Negotiator.isReceiver cfg); reflexivity.
Qed.

(** X14 — Errors of the signal handler stay inside it.  The handler sends
    at most one message.  It sends one only for an offer on which
    [setRemoteDescription], [createAnswer] and [setLocalDescription] all
    succeed, and the message is the answer that was set as the local
    description.  When it logs an error it has sent nothing. *)
Theorem signal_handler_sends_only_a_complete_answer :
  forall (pc : Negotiator.PeerConnection) (cfg : Negotiator.Config)
         (data : Negotiator.SignalData),
    let acts := Negotiator.onSignal pc cfg data in
    (In Negotiator.LogError acts -> Net.outgoing acts = []) /\
    (Net.outgoing acts = [] \/
     exists offer answer,
       data = Negotiator.OfferData offer /\
       Negotiator.setRemoteDescription pc offer = true /\
       Negotiator.createAnswer pc = Some answer /\
       Negotiator.setLocalDescription pc answer = true /\
       In (Negotiator.SetLocalDescription answer) acts /\
       Net.outgoing acts =
         [Relay.Signal (Negotiator.code cfg) (Negotiator.AnswerData answer)]).
Proof.
  intros pc cfg data acts. subst acts.
  destruct (SessionFacts.onSignal_outgoing pc cfg data)
    as [Hnone | [offer [answer [Hd [Hr [Ha [Hl Hacts]]]]]]].
  - split; [intros _; exact Hnone | now left].
  - rewrite Hacts. split.
    + intros Hin. simpl in Hin.
      destruct Hin as [H | [H | [H | [H | []]]]]; discriminate.
    + right. exists offer, answer. repeat split; try assumption.
      simpl. auto.
Qed.

(** X15 — The channel the returned object gives out.  [getDataChannel()]
    returns null exactly on a receiver on which no datachannel event has
    fired yet: a sender has its channel from the call on, and once set the
    variable is never null again.  [setupReceive] is called once for every
    datachannel event and at no other time, so never on the channel the
    sender creates. *)
Theorem data_channel_null_until_announced :
  forall (pc : Negotiator.PeerConnection) (cfg : Negotiator.Config)
         (inputs : list Negotiator.Input),
    Connection.getDataChannel pc cfg inputs =
      negb (Negotiator.isReceiver cfg)
      || existsb Connection.is_data_channel inputs /\
    length (filter Connection.is_setup (Negotiator.session pc cfg inputs)) =
      length (filter Connection.is_data_channel inputs).
Proof.
  intros pc cfg inputs.
  unfold Connection.getDataChannel, Negotiator.session,
    Negotiator.createWebRTCConnection. cbn [fst].
  destruct (SessionFacts.handleAll_channel pc cfg inputs
              (Negotiator.mkState (negb (Negotiator.isReceiver cfg)))) as [Hd Hs].
  split; [exact Hd |].
  rewrite filter_app, length_app, Hs.
  destruct (Negotiator.isReceiver cfg); reflexivity.
Qed.

Module AppFacts.
Import Sender SenderFacts TransferFacts.

Lemma filterIndex_past {A : Type} (index : nat) (l : list A) : forall k,
  (index < k)%nat ->
  App.filterIndex (fun i => negb (Nat.eqb i index)) k l = l.
Proof.
  induction l as [| x more IH]; intros k Hk; [reflexivity |].
  cbn [App.filterIndex].
  destruct (Nat.eqb_spec k index) as [-> | _]; [lia |].
  cbn [negb]. rewrite IH by lia. reflexivity.
Qed.

Lemma filterIndex_upto {A : Type} (index : nat) (l : list A) : forall k,
  (k <= index)%nat ->
  App.filterIndex (fun i => negb (Nat.eqb i index)) k l =
  firstn (index - k) l ++ skipn (S (index - k)) l.
Proof.
  induction l as [| x more IH]; intros k Hk.
  - cbn [App.filterIndex]. rewrite firstn_nil, skipn_nil. reflexivity.
  - cbn [App.filterIndex].
    destruct (Nat.eqb_spec k index) as [-> | Hne]; cbn [negb].
    + rewrite Nat.sub_diag. cbn [firstn skipn app].
      apply filterIndex_past. lia.
    + rewrite IH by lia.
      replace (index - k)%nat with (S (index - S k)) by lia.
      reflexivity.
Qed.

Lemma deleteFile_split {A : Type} (index : nat) (l : list A) :
  App.deleteFile index l = firstn index l ++ skipn (S index) l.
Proof.
  unfold App.deleteFile. rewrite filterIndex_upto by lia.
  now rewrite Nat.sub_0_r.
Qed.

Lemma countdown_value (n : nat) : forall t,
  1 <= t ->
  App.countdown n t = (Z.max 0 (t - Z.of_nat n), t <=? Z.of_nat n).
Proof.
  induction n as [| k IH]; intros t Ht.
  - cbn [App.countdown]. f_equal; [lia |].
    symmetry. apply Z.leb_gt. lia.
  - cbn [App.countdown]. unfold App.tick.
    destruct (Z.leb_spec t 1) as [Hle | Hgt].
    + f_equal; [lia |]. symmetry. apply Z.leb_le. lia.
    + rewrite IH by lia. f_equal; [lia |].
      destruct (Z.leb_spec (t - 1) (Z.of_nat k)), (Z.leb_spec t (Z.of_nat (S k)));
        reflexivity || lia.
Qed.

Lemma payloads_frames (tr : list Event) : payloads tr = Wire.binaries (frames tr).
Proof.
  induction tr as [| e more IH]; [reflexivity |].
  rewrite payloads_cons, frames_cons, ReceiverRuns.binaries_app, IH.
  destruct e as [b [m | d] | | | |]; reflexivity.
Qed.

End AppFacts.

(** X16 — Removing a file from the list.  [deleteFile(index)] leaves the
    files before [index], then those after it, in their order: one entry
    less when the index is in the list, the same list when it is not. *)
Theorem deleteFile_removes_one_position :
  forall (A : Type) (index : nat) (prevFiles : list A),
    App.deleteFile index prevFiles =
      firstn index prevFiles ++ skipn (S index) prevFiles /\
    ((index < length prevFiles)%nat ->
     S (length (App.deleteFile index prevFiles)) = length prevFiles /\
     forall d, nth index (App.deleteFile index prevFiles) d =
               nth (S index) prevFiles d) /\
    ((length prevFiles <= index)%nat ->
     App.deleteFile index prevFiles = prevFiles).
Proof.
  intros A index prevFiles. rewrite AppFacts.deleteFile_split.
  split; [reflexivity |]. split.
  - intros Hin. split.
    + rewrite length_app, length_firstn, length_skipn. lia.
    + intros d. rewrite app_nth2; rewrite length_firstn; [| lia].
      replace (index - Nat.min index (length prevFiles))%nat with 0%nat by lia.
      rewrite <- (firstn_skipn (S index) prevFiles) at 2.
      rewrite app_nth2; rewrite length_firstn; [| lia].
      replace (S index - Nat.min (S index) (length prevFiles))%nat with 0%nat by lia.
      reflexivity.
  - intros Hout. rewrite firstn_all2 by lia. rewrite skipn_all2 by lia.
    apply app_nil_r.
Qed.

(** X17 — Selecting and removing.  Removing a position that lies in the
    files just selected removes it from the selection and leaves the
    earlier files alone; removing a position among the earlier files
    leaves the selection alone.  So selecting one file and removing the
    last position gives the list back. *)
Theorem deleteFile_after_handleFileSelect :
  forall (A : Type) (prevFiles selectedFiles : list A) (k : nat),
    App.deleteFile (length prevFiles + k)
        (App.handleFileSelect prevFiles selectedFiles) =
      App.handleFileSelect prevFiles (App.deleteFile k selectedFiles) /\
    ((k < length prevFiles)%nat ->
     App.deleteFile k (App.handleFileSelect prevFiles selectedFiles) =
       App.handleFileSelect (App.deleteFile k prevFiles) selectedFiles) /\
    (forall file,
       App.deleteFile (length prevFiles) (App.handleFileSelect prevFiles [file]) =
       prevFiles).
Proof.
  intros A prevFiles selectedFiles k. unfold App.handleFileSelect.
  rewrite !AppFacts.deleteFile_split.
  assert (Hlate : forall (sel : list A) n,
            firstn (length prevFiles + n) (prevFiles ++ sel)
              ++ skipn (S (length prevFiles + n)) (prevFiles ++ sel) =
            prevFiles ++ firstn n sel ++ skipn (S n) sel).
  { intros sel n. rewrite firstn_app_2, skipn_app.
    rewrite skipn_all2 by lia.
    replace (S (length prevFiles + n) - length prevFiles)%nat with (S n) by lia.
    cbn [app]. now rewrite <- app_assoc. }
  split; [apply Hlate |]. split.
  - intros Hk. rewrite firstn_app, skipn_app.
    replace (k - length prevFiles)%nat with 0%nat by lia.
    replace (S k - length prevFiles)%nat with 0%nat by lia.
    cbn [firstn skipn]. rewrite app_nil_r. now rewrite <- app_assoc.
  - intros file. rewrite AppFacts.deleteFile_split.
    pose proof (Hlate [file] 0%nat) as H. rewrite Nat.add_0_r in H.
    rewrite H. cbn [firstn skipn app]. apply app_nil_r.
Qed.

(** X18 — The countdown of the code.  Started at a time of at least one
    second, the interval shows after n runs the time less n seconds, never
    below zero, and it has been cleared exactly when n has reached the
    starting time: it stops at 0 and does not go negative. *)
Theorem countdown_reaches_zero_and_stops :
  forall (n : nat) (timeRemaining : Z),
    1 <= timeRemaining ->
    App.countdown n timeRemaining =
      (Z.max 0 (timeRemaining - Z.of_nat n), timeRemaining <=? Z.of_nat n).
Proof.
  intros n t Ht. now apply AppFacts.countdown_value.
Qed.

Lemma countdown_reaches_zero_and_stops_witness :
  1 <= App.CODE_LIFETIME /\
  App.countdown 300 App.CODE_LIFETIME =
    (Z.max 0 (App.CODE_LIFETIME - Z.of_nat 300), App.CODE_LIFETIME <=? Z.of_nat 300).
Proof.
  assert (H : 1 <= App.CODE_LIFETIME) by (vm_compute; discriminate).
  split; [exact H |].
  exact (countdown_reaches_zero_and_stops 300%nat App.CODE_LIFETIME H).
Defined.

(** X19 — When the page says "sent".  If [performFileSend] gets to the
    transfer, the file and the channel were there and the channel was
    open, so the transfer is not rejected with "DataChannel is not open".
    The status "sending" is set first; "sent" is set exactly when the
    promise resolves, and then the chunks written to the channel are,
    joined, the content of the file. *)
Theorem sent_status_means_all_written :
  forall textBytes fuel env fileToSend rtcObj statuses run,
    App.performFileSend textBytes fuel env fileToSend rtcObj = (statuses, Some run) ->
    exists file dc,
      fileToSend = Some file /\
      rtcObj = Some (Some dc) /\
      Sender.readyState dc = Sender.Open /\
      (forall dc', snd run <> Sender.Rejected Sender.NotOpen dc') /\
      hd_error statuses = Some "sending"%string /\
      (In "sent"%string statuses <-> Sender.resolved (snd run) = true) /\
      (In "sent"%string statuses ->
       concat (Sender.payloads (fst run)) = File.bytes file).
Proof.
  intros textBytes fuel env fileToSend rtcObj statuses run H.
  unfold App.performFileSend, App.sendAndReport in H.
  destruct fileToSend as [file |]; [| discriminate].
  destruct rtcObj as [[dc |] |]; try discriminate.
  destruct (Sender.is_open dc) eqn:Hopen; [| discriminate].
  cbn [negb] in H.
  remember (Sender.sendFileOverRTC textBytes fuel env file (Some dc) true)
    as r eqn:Er.
  cbv beta iota zeta in H. injection H as <- <-.
  exists file, dc. split; [reflexivity |]. split; [reflexivity |].
  split; [now apply is_open_iff |].
  split.
  { intros dc'. rewrite Er, TransferFacts.sendFileOverRTC_open by exact Hopen.
    cbn [snd]. apply loop_never_NotOpen. }
  split; [reflexivity |].
  destruct r as [tr out]. cbn [fst snd].
  assert (Hiff : In "sent"%string
                   ("sending"%string
                      :: (if Sender.resolved out then ["sent"%string] else []))
                 <-> Sender.resolved out = true).
  { destruct (Sender.resolved out); simpl; split; intros Hs; auto.
    - destruct Hs as [Hs | []]. discriminate.
    - discriminate. }
  split; [exact Hiff |].
  intros Hsent. apply Hiff in Hsent.
  destruct out as [ch' | |]; try discriminate.
  symmetry in Er.
  destruct (TransferFacts.sendFileOverRTC_resolved textBytes _ _ _ _ _ _ _ Er) as [Hf _].
  rewrite AppFacts.payloads_frames, Hf.
  change (Wire.binaries (Text (Sender.metadata file)
                           :: map Binary (Sender.slices
                                (Sender.chunkCount (File.size file)) file 0)))
    with (Wire.binaries (map Binary (Sender.slices
                                (Sender.chunkCount (File.size file)) file 0))).
  rewrite ReceiverRuns.binaries_map. apply TransferFacts.slices_whole.
Qed.

Lemma sent_status_means_all_written_witness :
  App.performFileSend Samples.eighty 3 Samples.steady (Some Samples.tiny)
    (Some (Some Samples.fresh)) =
    (["sending"%string; "sent"%string],
     Some (Sender.sendFileOverRTC Samples.eighty 3 Samples.steady Samples.tiny
             (Some Samples.fresh) true)) /\
  exists file dc,
    Some Samples.tiny = Some file /\
    Some (Some Samples.fresh) = Some (Some dc) /\
    Sender.readyState dc = Sender.Open /\
    (forall dc',
       snd (Sender.sendFileOverRTC Samples.eighty 3 Samples.steady Samples.tiny
              (Some Samples.fresh) true) <> Sender.Rejected Sender.NotOpen dc') /\
    hd_error ["sending"%string; "sent"%string] = Some "sending"%string /\
    (In "sent"%string ["sending"%string; "sent"%string] <->
     Sender.resolved
       (snd (Sender.sendFileOverRTC Samples.eighty 3 Samples.steady Samples.tiny
               (Some Samples.fresh) true)) = true) /\
    (In "sent"%string ["sending"%string; "sent"%string] ->
     concat (Sender.payloads
               (fst (Sender.sendFileOverRTC Samples.eighty 3 Samples.steady
                       Samples.tiny (Some Samples.fresh) true))) =
     File.bytes file).
Proof.
  assert (H : App.performFileSend Samples.eighty 3 Samples.steady (Some Samples.tiny)
                (Some (Some Samples.fresh)) =
              (["sending"%string; "sent"%string],
               Some (Sender.sendFileOverRTC Samples.eighty 3 Samples.steady
                       Samples.tiny (Some Samples.fresh) true)))
    by reflexivity.
  split; [exact H |].
  exact (sent_status_means_all_written Samples.eighty 3%nat Samples.steady
           (Some Samples.tiny) (Some (Some Samples.fresh))
           ["sending"%string; "sent"%string]
           (Sender.sendFileOverRTC Samples.eighty 3 Samples.steady Samples.tiny
              (Some Samples.fresh) true) H).
Defined.
